(** * statemachines: a cooperative scheduler for finite-state machines

    A shallow embedding of [statemachines/__init__.py] and the properties
    its specification states about it.

    Python values are modelled as follows.
    - Integers are unbounded, hence [Z].
    - Objects (machines and events alike) are compared and hashed by
      identity, none of the classes defines [__eq__]; an object is its
      handle [obj].  A machine may itself be an event ([ButtonWatcher] is
      a flag, [UnevenBlinker] a time event), so both share the one type.
    - A [dict] keeps insertion order, and the scheduler relies on it (the
      aggregate search walks the keys in order), so the trackers are
      association lists with distinct keys.
    - Attributes the scheduler stores on a machine ([state],
      [transitions]) are finite maps from handles.
    - Exceptions do not roll back mutations: every operation returns the
      state it reached together with its outcome.
    - Loops whose length user code decides (immediate transitions, the
      cascade, the queues of additions and of deletions) take fuel;
      running out of it is an outcome of its own, never mistaken for a
      result.

    Not modelled: the clock and the sleep of [run], the random choices
    and the colours of [flicker.py], and the diagnostic dump; no property
    below depends on them. *)

From stdpp Require Import base tactics option list numbers gmap.

Local Open Scope Z_scope.

(** Identity of a Python object. *)
Definition obj := nat.

(** ** Concrete time events *)

Definition SECONDS_PER_NS : Z := 1000 * 1000 * 1000.

Module Pulser.

Record t := mk { period : Z; deadline : Z }.

(** [__init__], for a period given as a whole number of seconds;
    [clock] is the value read from [time.monotonic_ns()]. *)
Definition init (period_s clock : Z) : t :=
  let period := period_s * SECONDS_PER_NS in
  mk period (clock + period).

Definition happend (self : t) (now : Z) : bool * t :=
  let deadline := deadline self + period self in
  let deadline :=
    if bool_decide (now > deadline) then now + period self else deadline in
  (true, mk (period self) deadline).

Definition next_deadline (self : t) : Z := deadline self.

(** A run of [happend] calls; after each call the caller reads
    [next_deadline()].  The result lists, per call, what [happend]
    returned and the deadline read after it. *)
Fixpoint calls (self : t) (nows : list Z) : list (bool * Z) :=
  match nows with
  | [] => []
  | now :: rest =>
      let '(r, self') := happend self now in
      (r, next_deadline self') :: calls self' rest
  end.

(** The instance after the same run. *)
Definition after (self : t) (nows : list Z) : t :=
  foldl (fun p now => (happend p now).2) self nows.

(** Deadlines read by the caller: the one before the first call, then
    one per call. *)
Definition deadlines (self : t) (nows : list Z) : list Z :=
  next_deadline self :: (calls self nows).*2.

Fixpoint non_decreasing (l : list Z) : Prop :=
  match l with
  | x :: (y :: _) as tl => x <= y /\ non_decreasing tl
  | _ => True
  end.

End Pulser.

Module OneShot.

Record t := mk { deadline : Z }.

Definition init (now period : Z) : t := mk (now + period).

Definition happend (self : t) (now : Z) : bool * t := (true, self).

Definition next_deadline (self : t) : Z := deadline self.

Definition after (self : t) (nows : list Z) : t :=
  foldl (fun o now => (happend o now).2) self nows.

End OneShot.

(** ** The button watcher *)

Module ButtonWatcher.

(** The fields the state functions read and write; [self.button.value]
    is hardware and is passed to each call as [value]. *)
Record t := mk { invert : bool; pending_count : Z }.

Inductive state := start | down | up.

(** A state function returns the next state function and either the
    immediate-transfer sentinel ([true]) or [self.pulser] ([false]). *)
Definition call (st : state) (value : bool) (self : t)
  : state * bool * t :=
  match st with
  | start =>
      if xorb value (invert self) then (down, true, self)
      else (up, true, self)
  | down =>
      if xorb value (invert self) then (down, false, self)
      else (up, false, mk (invert self) (pending_count self + 1))
  | up =>
      if xorb value (invert self) then (down, false, self)
      else (up, false, self)
  end.

Definition consume (self : t) : bool * t :=
  if bool_decide (pending_count self = 0) then (false, self)
  else (true, mk (invert self) (pending_count self - 1)).

Definition triggered (self : t) : bool :=
  bool_decide (pending_count self > 0).

(** The state functions called one after the other, each reading the
    button once; the machine is registered in [start]. *)
Fixpoint calls (st : state) (self : t) (values : list bool) : state * t :=
  match values with
  | [] => (st, self)
  | value :: rest =>
      let '(st', _, self') := call st value self in calls st' self' rest
  end.

(** [consume] called [n] times: the answers, and the instance after. *)
Fixpoint consumes (n : nat) (self : t) : list bool * t :=
  match n with
  | O => ([], self)
  | S n =>
      let '(r, self') := consume self in
      let '(rs, self'') := consumes n self' in
      (r :: rs, self'')
  end.

(** Releases in a sequence of readings of whether the button is held:
    a held reading directly followed by a released one. *)
Fixpoint releases (held : list bool) : nat :=
  match held with
  | [] => O
  | h :: rest =>
      match rest with
      | false :: _ => if h then S (releases rest) else releases rest
      | _ => releases rest
      end
  end.

(** Whether each reading finds the button held, given [invert]. *)
Definition held (self : t) (values : list bool) : list bool :=
  (fun value => xorb value (invert self)) <$> values.

(** The state a watcher is in after a reading. *)
Definition watching (was_held : bool) : state :=
  if was_held then down else up.

End ButtonWatcher.

(** ** The flicker policy *)

Module FlickerPolicy.

(** The index bounds of a policy; the other fields are time ranges that
    only feed the random choices. *)
Record t := mk { index_bottom : Z; index_min : Z; index_max : Z }.

Definition limit_index (self : t) (index : Z) : Z :=
  Z.max (Z.min index (index_max self)) (index_bottom self).

Definition at_least_min (self : t) (n : Z) : bool :=
  bool_decide (n >= index_min self).

End FlickerPolicy.

(** ** Event trackers *)

Module EventTracker.

(** [self.events]: event -> list of subscribed machines, in insertion
    order of the keys. *)
Abbreviation t := (list (obj * list obj)).

Definition empty : t := [].

Definition keys (tr : t) : list obj := tr.*1.

(** [self.events[event]], [None] standing for [KeyError]. *)
Fixpoint lookup (event : obj) (tr : t) : option (list obj) :=
  match tr with
  | [] => None
  | (e, machines) :: rest =>
      if decide (e = event) then Some machines else lookup event rest
  end.

(** [event in self.events] *)
Definition contains (event : obj) (tr : t) : bool :=
  bool_decide (is_Some (lookup event tr)).

(** [del self.events[k]] *)
Fixpoint del (k : obj) (tr : t) : t :=
  match tr with
  | [] => []
  | (e, machines) :: rest =>
      if decide (e = k) then rest else (e, machines) :: del k rest
  end.

Fixpoint add (machine event : obj) (tr : t) : t :=
  match tr with
  | [] => [(event, [machine])]
  | (e, machines) :: rest =>
      if decide (e = event) then (e, machines ++ [machine]) :: rest
      else (e, machines) :: add machine event rest
  end.

(** [list.remove]: drops the first occurrence only. *)
Fixpoint remove_first (x : obj) (l : list obj) : list obj :=
  match l with
  | [] => []
  | y :: l' => if decide (y = x) then l' else y :: remove_first x l'
  end.

(** First loop of [delete]: walks the items, removes [machine] from the
    lists that hold it and collects the keys whose list is now empty. *)
Fixpoint delete_scan (machine : obj) (tr : t) : t * list obj :=
  match tr with
  | [] => ([], [])
  | (event, machines) :: rest =>
      let machines :=
        if bool_decide (machine ∈ machines)
        then remove_first machine machines else machines in
      let '(rest', del_list) := delete_scan machine rest in
      ((event, machines) :: rest',
       if bool_decide (machines = []) then event :: del_list else del_list)
  end.

Definition delete (machine : obj) (tr : t) : t :=
  let '(tr', del_list) := delete_scan machine tr in
  foldl (fun acc k => del k acc) tr' del_list.

Definition dequeue (event : obj) (tr : t) : option (list obj * t) :=
  match lookup event tr with
  | Some rslt => Some (rslt, del event tr)
  | None => None
  end.

(** Trackers the scheduler can build: it starts from an empty [dict]
    and only ever calls [add], [delete] and [dequeue]. *)
Inductive reachable : t -> Prop :=
| reach_empty : reachable empty
| reach_add machine event tr :
    reachable tr -> reachable (add machine event tr)
| reach_delete machine tr :
    reachable tr -> reachable (delete machine tr)
| reach_dequeue event tr rslt tr' :
    reachable tr -> dequeue event tr = Some (rslt, tr') -> reachable tr'.

(** No entry with an empty subscriber list. *)
Definition no_empty (tr : t) : Prop := Forall (fun p => p.2 ≠ []) tr.

(** Subscriber lists are "ordered sets": no machine twice in one list. *)
Definition subscribers_distinct (tr : t) : Prop :=
  Forall (fun p => NoDup p.2) tr.

(** [delete] seen as one pass takes [machine] out of every list, then
    drops the entries left empty; this is the first half. *)
Definition strip (machine : obj) (p : obj * list obj) : obj * list obj :=
  (p.1, remove_first machine p.2).

(** The events [machine] is subscribed to in a tracker. *)
Definition events_of (machine : obj) (tr : t) : list obj :=
  (filter (fun p => machine ∈ p.2) tr).*1.

(** [min(iterable, key=...)]: the running best is replaced only by an
    item whose key is strictly smaller, so of equal keys the first wins. *)
Fixpoint min_by (key : obj -> Z) (best : obj) (rest : list obj) : obj :=
  match rest with
  | [] => best
  | x :: rest =>
      if bool_decide (key x < key best) then min_by key x rest
      else min_by key best rest
  end.

(** [TimeEventTracker.soonest], with the deadlines the tracked events
    report (integers, as [advance] checked when it added them); [None]
    stands for the [ValueError] of [min] on an empty [dict]. *)
Definition soonest (next_deadline : obj -> Z) (tr : t) : option obj :=
  match keys tr with
  | [] => None
  | event :: rest => Some (min_by next_deadline event rest)
  end.

(** How often [machine] occurs in a subscriber list. *)
Definition occurrences (machine : obj) (machines : list obj) : nat :=
  length (filter (fun m => m = machine) machines).

(** The subscribers of an event, none if it is not tracked. *)
Definition subscribers (event : obj) (tr : t) : list obj :=
  default [] (lookup event tr).

(** Every machine of [machines], in turn, subscribing to [event]. *)
Definition add_all (machines : list obj) (event : obj) (tr : t) : t :=
  foldl (fun tr machine => add machine event tr) tr machines.

End EventTracker.

(** ** The scheduler *)

(** What a method may hand back where the scheduler expects an integer. *)
Inductive pyval :=
| VInt (z : Z)
| VBool (b : bool)
| VFloat
| VNone
| VObj (o : obj).

(** [type(v) != int] is an exact type test: [bool] does not pass. *)
Definition type_is_int (v : pyval) : bool :=
  match v with VInt _ => true | _ => false end.

(** Second component of a state function's result: an event object,
    [None], or the string [IMMEDATE_TRANSFER].  An object never compares
    equal to the string. *)
Inductive next_event :=
| NEvent (e : obj)
| NAbsent
| IMMEDATE_TRANSFER.

Global Instance next_event_eq_dec : EqDecision next_event.
Proof. solve_decision. Defined.

(** Calls of the registration API made from user code. *)
Inductive api_call :=
| Register (machines : list obj)
| Deregister (machines : list obj).

(** How the invocation of a state function ends. *)
Inductive returned (St E : Type) :=
| Return (next_state : option St) (next : next_event)
| Throw (err : E).
Arguments Return {St E} next_state next.
Arguments Throw {St E} err.

Inductive tracker_kind := TimeT | FlagT | AggregateT.

Global Instance tracker_kind_eq_dec : EqDecision tracker_kind.
Proof. solve_decision. Defined.

Section Scheduler.

(** [W]: the state of the user's objects (fields of machines and events,
    pin levels); [St]: state functions, that is bound methods; [E]: the
    exceptions user code raises. *)
Context {W St E : Type}.

(** The user's classes, as the scheduler sees them: which attributes an
    object has ([hasattr]), and what its methods do.  A state function
    reads and writes the user's objects, may call [register_machine] and
    [deregister_machine], and returns a pair or raises.  [finish] and the
    actors are user code as well: they return nothing ([None]) or raise
    ([Some err]), and may do the same on the way. *)
Record program := {
  has_next_deadline : obj -> W -> bool;
  has_triggered : obj -> W -> bool;
  has_waiting_on : obj -> W -> bool;
  has_finish : obj -> W -> bool;
  next_deadline : obj -> W -> pyval;
  happend : obj -> Z -> W -> bool * W;
  triggered : obj -> W -> bool;
  waiting_on : obj -> obj -> W -> bool;
  finish : obj -> W -> option E * list api_call * W;
  start : obj -> St;
  call : St -> Z -> W -> returned St E * list api_call * W;
  actor : obj -> W -> option E * list api_call * W
}.

(** What can propagate out of the scheduler: an exception of user code,
    carried as it was raised; the assertion of [advance]; a missing
    attribute on a machine; a missing key in a tracker. *)
Inductive exn :=
| StateError (err : E)
| AssertionError (deadline : pyval) (event machine : obj)
| AttributeError (o : obj)
| KeyError (k : obj).

(** Ghost record of what the scheduler did, oldest first: entering
    [advance], invoking a state function in [call_state], entering
    [process_event], [do_adds] and [do_deletes], calling an actor.
    Nothing reads it. *)
Inductive action :=
| AAdvance (machine : obj) (event : option obj)
| ACall (machine : obj) (st : St)
| AProcess (k : tracker_kind) (event : obj)
| ACommitAdds
| ACommitDeletes
| AActor (a : obj).

(** Module-level state, the attributes the scheduler keeps on machines,
    and the user's objects. *)
Record sched := {
  world : W;
  state : gmap obj St;
  transitions : gmap obj Z;
  time_events : EventTracker.t;
  flag_events : EventTracker.t;
  aggregate_events : EventTracker.t;
  pending_adds : list obj;
  pending_deletes : list obj;
  state_clock : Z;
  trace : list action
}.

Definition set_world (w : W) (s : sched) : sched :=
  {| world := w; state := state s; transitions := transitions s;
     time_events := time_events s; flag_events := flag_events s;
     aggregate_events := aggregate_events s;
     pending_adds := pending_adds s; pending_deletes := pending_deletes s;
     state_clock := state_clock s; trace := trace s |}.

Definition set_state (m : gmap obj St) (s : sched) : sched :=
  {| world := world s; state := m; transitions := transitions s;
     time_events := time_events s; flag_events := flag_events s;
     aggregate_events := aggregate_events s;
     pending_adds := pending_adds s; pending_deletes := pending_deletes s;
     state_clock := state_clock s; trace := trace s |}.

Definition set_transitions (m : gmap obj Z) (s : sched) : sched :=
  {| world := world s; state := state s; transitions := m;
     time_events := time_events s; flag_events := flag_events s;
     aggregate_events := aggregate_events s;
     pending_adds := pending_adds s; pending_deletes := pending_deletes s;
     state_clock := state_clock s; trace := trace s |}.

Definition tracker (k : tracker_kind) (s : sched) : EventTracker.t :=
  match k with
  | TimeT => time_events s
  | FlagT => flag_events s
  | AggregateT => aggregate_events s
  end.

Definition set_tracker (k : tracker_kind) (tr : EventTracker.t) (s : sched)
  : sched :=
  {| world := world s; state := state s; transitions := transitions s;
     time_events := if decide (k = TimeT) then tr else time_events s;
     flag_events := if decide (k = FlagT) then tr else flag_events s;
     aggregate_events :=
       if decide (k = AggregateT) then tr else aggregate_events s;
     pending_adds := pending_adds s; pending_deletes := pending_deletes s;
     state_clock := state_clock s; trace := trace s |}.

Definition set_pending_adds (l : list obj) (s : sched) : sched :=
  {| world := world s; state := state s; transitions := transitions s;
     time_events := time_events s; flag_events := flag_events s;
     aggregate_events := aggregate_events s;
     pending_adds := l; pending_deletes := pending_deletes s;
     state_clock := state_clock s; trace := trace s |}.

Definition set_pending_deletes (l : list obj) (s : sched) : sched :=
  {| world := world s; state := state s; transitions := transitions s;
     time_events := time_events s; flag_events := flag_events s;
     aggregate_events := aggregate_events s;
     pending_adds := pending_adds s; pending_deletes := l;
     state_clock := state_clock s; trace := trace s |}.

Definition set_state_clock (c : Z) (s : sched) : sched :=
  {| world := world s; state := state s; transitions := transitions s;
     time_events := time_events s; flag_events := flag_events s;
     aggregate_events := aggregate_events s;
     pending_adds := pending_adds s; pending_deletes := pending_deletes s;
     state_clock := c; trace := trace s |}.

Definition log (a : action) (s : sched) : sched :=
  {| world := world s; state := state s; transitions := transitions s;
     time_events := time_events s; flag_events := flag_events s;
     aggregate_events := aggregate_events s;
     pending_adds := pending_adds s; pending_deletes := pending_deletes s;
     state_clock := state_clock s; trace := trace s ++ [a] |}.

(** *** Computations: state, exceptions, and fuel for the loops whose
    length the user's code decides. *)

Inductive outcome (A : Type) :=
| Ok (a : A)
| Raised (e : exn)
| OutOfFuel.
Arguments Ok {A} a.
Arguments Raised {A} e.
Arguments OutOfFuel {A}.

Definition M (A : Type) : Type := sched -> outcome A * sched.

Definition ret {A} (a : A) : M A := fun s => (Ok a, s).

Definition bind {A B} (c : M A) (k : A -> M B) : M B :=
  fun s =>
    match c s with
    | (Ok a, s') => k a s'
    | (Raised e, s') => (Raised e, s')
    | (OutOfFuel, s') => (OutOfFuel, s')
    end.

Definition raise {A} (e : exn) : M A := fun s => (Raised e, s).

Definition out_of_fuel {A} : M A := fun s => (OutOfFuel, s).

Definition gets {A} (f : sched -> A) : M A := fun s => (Ok (f s), s).

Definition modify (f : sched -> sched) : M unit := fun s => (Ok tt, f s).

(** Reading an attribute the scheduler keeps on a machine. *)
Definition getattr {A} (f : sched -> gmap obj A) (o : obj) : M A :=
  fun s =>
    match f s !! o with
    | Some a => (Ok a, s)
    | None => (Raised (AttributeError o), s)
    end.

Notation "'let*' x := c1 'in' c2" := (bind c1 (fun x => c2))
  (at level 10, x pattern, c1 at level 100, c2 at level 200).

Variable P : program.

(** *** Registration queue *)

Definition register_machine (machines : list obj) (s : sched) : sched :=
  let s :=
    foldl (fun s machine =>
             set_transitions (<[machine := 0]> (transitions s)) s)
          s machines in
  set_pending_adds (pending_adds s ++ machines) s.

Definition deregister_machine (machines : list obj) (s : sched) : sched :=
  set_pending_deletes (pending_deletes s ++ machines) s.

Definition api (s : sched) (c : api_call) : sched :=
  match c with
  | Register machines => register_machine machines s
  | Deregister machines => deregister_machine machines s
  end.

(** *** Advancement engine *)

(** [machine.state(now)]: the user's function runs on the user's objects;
    what it registered or deregistered is in the queues whether it
    returns or raises. *)
Definition invoke (st : St) (now : Z) : M (option St * next_event) :=
  fun s =>
    let '(r, calls, w) := call P st now (world s) in
    let s := foldl api (set_world w s) calls in
    match r with
    | Return next_state next => (Ok (next_state, next), s)
    | Throw err => (Raised (StateError err), s)
    end.

(** [machine.finish()] and [actor()]: user code called for its effect.
    As with a state function, what it registered or deregistered is in
    the queues whether it returns or raises. *)
Definition hook (code : W -> option E * list api_call * W) : M unit :=
  fun s =>
    let '(r, calls, w) := code (world s) in
    let s := foldl api (set_world w s) calls in
    match r with
    | None => (Ok tt, s)
    | Some err => (Raised (StateError err), s)
    end.

(** The assignment [machine.state, next_event = machine.state(now)]
    followed by the restoration of [last_state] when the new state is
    [None], written as one update. *)
Definition call_state (now : Z) (machine : obj) (event : option obj)
  : M next_event :=
  let* n := getattr transitions machine in
  let* _ := modify (fun s =>
              set_transitions (<[machine := n + 1]> (transitions s)) s) in
  let* last_state := getattr state machine in
  let* _ := modify (log (ACall machine last_state)) in
  let* r := invoke last_state now in
  let* _ := modify (fun s =>
              set_state (<[machine := default last_state r.1]> (state s)) s) in
  ret r.2.

(** [next_event = call_state(...)] and the [while] loop after it. *)
Fixpoint advance_loop (fuel : nat) (now : Z) (machine : obj)
    (event : option obj) : M next_event :=
  match fuel with
  | O => out_of_fuel
  | S fuel =>
      let* next_event := call_state now machine event in
      if decide (next_event = IMMEDATE_TRANSFER)
      then advance_loop fuel now machine event
      else ret next_event
  end.

Definition tracker_add (k : tracker_kind) (machine event : obj) : M unit :=
  modify (fun s =>
            set_tracker k (EventTracker.add machine event (tracker k s)) s).

(** The [try] block only re-raises.  [None] has none of the attributes
    tested, so a machine left without an event enters no tracker. *)
Definition advance (fuel : nat) (now : Z) (machine : obj)
    (event : option obj) : M unit :=
  let* _ := modify (log (AAdvance machine event)) in
  let* next_event := advance_loop fuel now machine event in
  let next_event :=
    match next_event with
    | NEvent e => Some e
    | NAbsent => event
    | IMMEDATE_TRANSFER => None
    end in
  match next_event with
  | None => ret tt
  | Some next_event =>
      let* w := gets world in
      if has_next_deadline P next_event w then
        let deadline := next_deadline P next_event w in
        if negb (type_is_int deadline)
        then raise (AssertionError deadline next_event machine)
        else tracker_add TimeT machine next_event
      else if has_triggered P next_event w then
        if has_waiting_on P next_event w
        then tracker_add AggregateT machine next_event
        else tracker_add FlagT machine next_event
      else ret tt
  end.

(** *** Dispatch *)

Definition tracker_dequeue (k : tracker_kind) (event : obj) : M (list obj) :=
  fun s =>
    match EventTracker.dequeue event (tracker k s) with
    | Some (rslt, tr) => (Ok rslt, set_tracker k tr s)
    | None => (Raised (KeyError event), s)
    end.

(** The [for] loop of [process_event]; the result is
    [triggered_machines], filled in the order of the iteration. *)
Fixpoint process_machines (fuel : nat) (now : Z) (event : obj)
    (machines : list obj) : M (list obj) :=
  match machines with
  | [] => ret []
  | machine :: rest =>
      let* _ := advance fuel now machine (Some event) in
      let* w := gets world in
      let hit := has_triggered P machine w && triggered P machine w in
      let* triggered_machines := process_machines fuel now event rest in
      ret (if hit then machine :: triggered_machines else triggered_machines)
  end.

Definition process_event (fuel : nat) (now : Z) (k : tracker_kind)
    (event : obj) : M (list obj) :=
  let* _ := modify (log (AProcess k event)) in
  let* machines := tracker_dequeue k event in
  process_machines fuel now event machines.

(** [list.pop()]: the last element and the rest. *)
Definition pop (l : list obj) : option (obj * list obj) :=
  match reverse l with
  | [] => None
  | x :: r => Some (x, reverse r)
  end.

(** [for aggregate_event in aggregate_events.search(event): ...extend(...)].
    [search] is a generator: each key is tested when the loop asks for the
    next one, after the previous [process_event] has run.  The keys
    visited are those of the tracker when the search started; what an
    interpreter does when the [dict] changes under the generator is its
    own affair, and no property below depends on which keys are visited. *)
Fixpoint search_process (fuel : nat) (now : Z) (trigger : obj)
    (events : list obj) (triggered_machines : list obj) : M (list obj) :=
  match events with
  | [] => ret triggered_machines
  | event :: rest =>
      let* w := gets world in
      if waiting_on P event trigger w && triggered P event w then
        let* more := process_event fuel now AggregateT event in
        search_process fuel now trigger rest (triggered_machines ++ more)
      else search_process fuel now trigger rest triggered_machines
  end.

(** [while triggered_machines: ...] of [run]. *)
Fixpoint cascade (fuel : nat) (now : Z) (triggered_machines : list obj)
  : M unit :=
  match pop triggered_machines with
  | None => ret tt
  | Some (event, triggered_machines) =>
      match fuel with
      | O => out_of_fuel
      | S fuel =>
          let* flags := gets flag_events in
          if EventTracker.contains event flags then
            let* more := process_event fuel now FlagT event in
            cascade fuel now (triggered_machines ++ more)
          else
            let* aggregates := gets aggregate_events in
            let* triggered_machines :=
              search_process fuel now event (EventTracker.keys aggregates)
                             triggered_machines in
            cascade fuel now triggered_machines
      end
  end.

(** *** Commit points *)

(** The [for] loop of [do_adds] walks the very list that
    [register_machine] extends, so machines registered while the loop
    runs are started by it too. *)
Fixpoint do_adds_from (fuel : nat) (now : Z) (i : nat) : M unit :=
  match fuel with
  | O => out_of_fuel
  | S fuel =>
      let* queue := gets pending_adds in
      match queue !! i with
      | None => ret tt
      | Some machine =>
          let* _ := modify (fun s =>
                      set_state (<[machine := start P machine]> (state s)) s) in
          let* _ := advance fuel now machine None in
          do_adds_from fuel now (S i)
      end
  end.

Definition do_adds (fuel : nat) (now : Z) : M unit :=
  let* _ := modify (log ACommitAdds) in
  let* queue := gets pending_adds in
  match queue with
  | [] => ret tt
  | _ =>
      let* _ := do_adds_from fuel now 0 in
      modify (set_pending_adds [])
  end.

Definition delete_everywhere (machine : obj) (s : sched) : sched :=
  let s := set_tracker TimeT (EventTracker.delete machine (time_events s)) s in
  let s := set_tracker FlagT (EventTracker.delete machine (flag_events s)) s in
  set_tracker AggregateT
    (EventTracker.delete machine (aggregate_events s)) s.

(** The [for] loop of [do_deletes] walks the very list that
    [deregister_machine] extends, so machines a [finish] deregisters are
    deleted by it too; an exception of [finish] leaves the loop, and the
    queue as it is. *)
Fixpoint do_deletes_from (fuel : nat) (i : nat) : M unit :=
  match fuel with
  | O => out_of_fuel
  | S fuel =>
      let* queue := gets pending_deletes in
      match queue !! i with
      | None => ret tt
      | Some machine =>
          let* _ := modify (delete_everywhere machine) in
          let* w := gets world in
          let* _ := if has_finish P machine w
                    then hook (finish P machine) else ret tt in
          do_deletes_from fuel (S i)
      end
  end.

Definition do_deletes (fuel : nat) : M unit :=
  let* _ := modify (log ACommitDeletes) in
  let* queue := gets pending_deletes in
  match queue with
  | [] => ret tt
  | _ =>
      let* _ := do_deletes_from fuel 0 in
      modify (set_pending_deletes [])
  end.

(** [for actor in aggregate_actors: actor()] *)
Fixpoint run_actors (actors : list obj) : M unit :=
  match actors with
  | [] => ret tt
  | a :: rest =>
      let* _ := modify (log (AActor a)) in
      let* _ := hook (actor P a) in
      run_actors rest
  end.

(** *** One firing: lines 407-427 of [run], from
    [if fired_event.happend(now)] to the actors. *)
Definition run_fire (fuel : nat) (now : Z) (fired_event : obj)
    (aggregate_actors : list obj) : M unit :=
  let* happened := (fun s =>
      let '(b, w) := happend P fired_event now (world s) in
      (Ok b, set_world w s)) in
  if happened : bool then
    let* _ := modify (fun s => set_state_clock (state_clock s + 1) s) in
    let* triggered_machines := process_event fuel now TimeT fired_event in
    let* _ := cascade fuel now triggered_machines in
    let* _ := do_adds fuel now in
    let* _ := do_deletes fuel in
    run_actors aggregate_actors
  else ret tt.

End Scheduler.

Arguments program : clear implicits.
Arguments exn : clear implicits.
Arguments action : clear implicits.
Arguments sched : clear implicits.
Arguments outcome : clear implicits.
Arguments M : clear implicits.
Arguments Ok {E A} a.
Arguments Raised {E A} e.
Arguments OutOfFuel {E A}.

(** ** The classes of the package, as a program

    The user's objects live in a heap.  Besides the classes of
    [statemachines/__init__.py] the heap can hold a [ButtonCounter] (from
    [tests/flicker_test.py], the one state function of the repository
    that returns [None, None]) and a [TimedFlag], a user class with both
    [next_deadline] and [triggered], which the package allows but does
    not ship. *)

Module Stock.

Inductive method := m_start | m_down | m_up | m_on | m_off | m_press.

Inductive pyobj :=
| OPulser (p : Pulser.t)
| OOneShot (o : OneShot.t)
| OFlagOr (watch_list : list obj)
| OButtonWatcher (invert : bool) (pulser : obj) (button_value : bool)
    (pending_count : Z)
| OBlinker (led : bool) (event : obj)
| OUnevenBlinker (on_period off_period : Z) (deadline : option Z) (led : bool)
| OButtonCounter (count : Z) (back forward watcher : obj)
| OTimedFlag (deadline : Z) (flag : bool).

Definition heap := gmap obj pyobj.

(** A bound method. *)
Definition bound := (obj * method)%type.

Inductive error :=
| NoSuchMethod (o : obj) (m : method)
| NoConsume (o : obj).

Definition has_next_deadline (o : obj) (h : heap) : bool :=
  match h !! o with
  | Some (OPulser _) | Some (OOneShot _) | Some (OUnevenBlinker _ _ _ _)
  | Some (OTimedFlag _ _) => true
  | _ => false
  end.

Definition has_triggered (o : obj) (h : heap) : bool :=
  match h !! o with
  | Some (OFlagOr _) | Some (OButtonWatcher _ _ _ _)
  | Some (OTimedFlag _ _) => true
  | _ => false
  end.

Definition has_waiting_on (o : obj) (h : heap) : bool :=
  match h !! o with
  | Some (OFlagOr _) => true
  | _ => false
  end.

Definition next_deadline (o : obj) (h : heap) : pyval :=
  match h !! o with
  | Some (OPulser p) => VInt (Pulser.next_deadline p)
  | Some (OOneShot o) => VInt (OneShot.next_deadline o)
  | Some (OUnevenBlinker _ _ (Some d) _) => VInt d
  | Some (OTimedFlag d _) => VInt d
  | _ => VNone
  end.

Definition happend (o : obj) (now : Z) (h : heap) : bool * heap :=
  match h !! o with
  | Some (OPulser p) =>
      let '(r, p') := Pulser.happend p now in (r, <[o := OPulser p']> h)
  | _ => (true, h)
  end.

(** [FlagOr.triggered] asks its members in turn; [depth] bounds the
    nesting of aggregates inside aggregates. *)
Fixpoint triggered_upto (depth : nat) (h : heap) (o : obj) : bool :=
  match h !! o with
  | Some (OButtonWatcher _ _ _ pending_count) => bool_decide (pending_count > 0)
  | Some (OTimedFlag _ flag) => flag
  | Some (OFlagOr watch_list) =>
      match depth with
      | O => false
      | S depth => existsb (triggered_upto depth h) watch_list
      end
  | _ => false
  end.

Definition triggered (o : obj) (h : heap) : bool :=
  triggered_upto (size h) h o.

Definition waiting_on (o event : obj) (h : heap) : bool :=
  match h !! o with
  | Some (OFlagOr watch_list) => bool_decide (event ∈ watch_list)
  | _ => false
  end.

(** [ButtonWatcher.consume], called on whatever object the caller holds. *)
Definition consume (o : obj) (h : heap) : option (bool * heap) :=
  match h !! o with
  | Some (OButtonWatcher invert pulser value pending_count) =>
      if bool_decide (pending_count = 0) then Some (false, h)
      else
        let watcher := OButtonWatcher invert pulser value (pending_count - 1) in
        Some (true, <[o := watcher]> h)
  | _ => None
  end.

Definition call (st : bound) (now : Z) (h : heap)
  : returned bound error * list api_call * heap :=
  let '(self, m) := st in
  let fail := (Throw (NoSuchMethod self m), [], h) in
  match h !! self with
  | Some (OButtonWatcher invert pulser value pending_count) =>
      match m with
      | m_start =>
          if xorb value invert
          then (Return (Some (self, m_down)) IMMEDATE_TRANSFER, [], h)
          else (Return (Some (self, m_up)) IMMEDATE_TRANSFER, [], h)
      | m_down =>
          if xorb value invert
          then (Return (Some (self, m_down)) (NEvent pulser), [], h)
          else (Return (Some (self, m_up)) (NEvent pulser), [],
                <[self := OButtonWatcher invert pulser value
                            (pending_count + 1)]> h)
      | m_up =>
          if xorb value invert
          then (Return (Some (self, m_down)) (NEvent pulser), [], h)
          else (Return (Some (self, m_up)) (NEvent pulser), [], h)
      | _ => fail
      end
  | Some (OBlinker led event) =>
      match m with
      | m_start => (Return (Some (self, m_off)) IMMEDATE_TRANSFER, [], h)
      | m_on => (Return (Some (self, m_off)) (NEvent event), [],
                 <[self := OBlinker true event]> h)
      | m_off => (Return (Some (self, m_on)) (NEvent event), [],
                  <[self := OBlinker false event]> h)
      | _ => fail
      end
  | Some (OUnevenBlinker on_period off_period deadline led) =>
      match m with
      | m_start => (Return (Some (self, m_off)) IMMEDATE_TRANSFER, [], h)
      | m_off => (Return (Some (self, m_on)) (NEvent self), [],
                  <[self := OUnevenBlinker on_period off_period
                              (Some (now + off_period)) false]> h)
      | m_on => (Return (Some (self, m_off)) (NEvent self), [],
                 <[self := OUnevenBlinker on_period off_period
                             (Some (now + on_period)) true]> h)
      | _ => fail
      end
  | Some (OButtonCounter count back forward watcher) =>
      match m with
      | m_start => (Return (Some (self, m_press)) (NEvent watcher), [], h)
      | m_press =>
          match consume forward h with
          | None => (Throw (NoConsume forward), [], h)
          | Some (f, h) =>
              let count := if f then count + 1 else count in
              let h :=
                <[self := OButtonCounter count back forward watcher]> h in
              match consume back h with
              | None => (Throw (NoConsume back), [], h)
              | Some (b, h) =>
                  let count := if b then count - 1 else count in
                  let count := count `mod` 10 in
                  (Return None NAbsent, [],
                   <[self := OButtonCounter count back forward watcher]> h)
              end
          end
      | _ => fail
      end
  | _ => fail
  end.

Definition classes : program heap bound error :=
  @Build_program heap bound error
    has_next_deadline has_triggered has_waiting_on (fun _ _ => false)
    next_deadline happend triggered waiting_on (fun _ h => (None, [], h))
    (fun o => (o, m_start)) call (fun _ h => (None, [], h)).

(** A scheduler right after import: nothing tracked, nothing queued. *)
Definition fresh (h : heap) : sched heap bound := {|
  world := h; state := ∅; transitions := ∅;
  time_events := EventTracker.empty; flag_events := EventTracker.empty;
  aggregate_events := EventTracker.empty;
  pending_adds := []; pending_deletes := [];
  state_clock := 0; trace := []
|}.

(** A scheduler that tracks one machine: its recorded state and counter,
    and the Time Tracker as given. *)
Definition tracking (h : heap) (machine : obj) (st : bound) (n : Z)
    (time_events : EventTracker.t) : sched heap bound := {|
  world := h; state := {[machine := st]}; transitions := {[machine := n]};
  time_events := time_events; flag_events := EventTracker.empty;
  aggregate_events := EventTracker.empty;
  pending_adds := []; pending_deletes := [];
  state_clock := 0; trace := []
|}.

(** [Blinker(pin, Pulser(1))], registered and about to be started. *)
Definition blinker_heap : heap :=
  {[0%nat := OPulser (Pulser.init 1 0); 1%nat := OBlinker false 0%nat]}.

Definition blinker_start : sched heap bound :=
  tracking blinker_heap 1%nat (1%nat, m_start) 0 [].

(** A [ButtonWatcher] on a 100 Hz pulser, in state [down] with the button
    released; the pulser has just fired and its entry is still tracked. *)
Definition watcher_heap : heap :=
  {[0%nat := OPulser (Pulser.mk 10000000 10000000);
    1%nat := OButtonWatcher false 0%nat false 0]}.

Definition watcher_down : sched heap bound :=
  tracking watcher_heap 1%nat (1%nat, m_down) 2 [(0%nat, [1%nat])].

(** The [ButtonCounter] of the tests, waiting on its [FlagOr]; button A
    (object 1) has one release pending. *)
Definition counter_heap : heap :=
  {[0%nat := OPulser (Pulser.mk 10000000 10000000);
    1%nat := OButtonWatcher false 0%nat false 1;
    2%nat := OButtonWatcher false 0%nat false 0;
    3%nat := OFlagOr [2%nat; 1%nat];
    4%nat := OButtonCounter 0 1%nat 2%nat 3%nat]}.

Definition counter_press : sched heap bound :=
  tracking counter_heap 4%nat (4%nat, m_press) 1 [].

(** A [ButtonCounter] built over a pulser instead of a button: the
    pulser has no [consume], so [press] raises. *)
Definition miswired_heap : heap :=
  {[0%nat := OPulser (Pulser.mk 10000000 10000000);
    1%nat := OButtonWatcher false 0%nat false 1;
    3%nat := OFlagOr [0%nat; 1%nat];
    4%nat := OButtonCounter 0 1%nat 0%nat 3%nat]}.

Definition miswired_press : sched heap bound :=
  tracking miswired_heap 4%nat (4%nat, m_press) 1 [].

(** A [Blinker] driven by an [UnevenBlinker] that was never started: its
    deadline is still [None]. *)
Definition unstarted_heap : heap :=
  {[1%nat := OBlinker true 2%nat;
    2%nat := OUnevenBlinker 500 500 None false]}.

Definition unstarted_off : sched heap bound :=
  tracking unstarted_heap 1%nat (1%nat, m_off) 1 [].

(** A [Blinker] driven by a [TimedFlag]. *)
Definition timed_flag_heap : heap :=
  {[1%nat := OBlinker true 2%nat; 2%nat := OTimedFlag 100 true]}.

Definition timed_flag_off : sched heap bound :=
  tracking timed_flag_heap 1%nat (1%nat, m_off) 1 [].

(** An [UnevenBlinker], which is its own time event, in state [off]. *)
Definition uneven_heap : heap :=
  {[1%nat := OUnevenBlinker 300 700 None true]}.

Definition uneven_off : sched heap bound :=
  tracking uneven_heap 1%nat (1%nat, m_off) 1 [].

(** The [ButtonCounter] subscribed to its [FlagOr] in the Aggregate
    Tracker, with two releases of button A pending. *)
Definition counter_waiting : sched heap bound :=
  set_tracker AggregateT [(3%nat, [4%nat])]
    (tracking (<[1%nat := OButtonWatcher false 0%nat false 2]> counter_heap)
       4%nat (4%nat, m_press) 1 []).


End Stock.

(** ** Vocabulary of the properties *)

Section Vocabulary.

Context {W St E : Type}.
Variable P : program W St E.

(** The machines a run of user code passed to [register_machine]. *)
Definition registered (calls : list api_call) : list obj :=
  calls ≫= (fun c => match c with
                     | Register machines => machines
                     | Deregister _ => []
                     end).

(** [runs now st w k calls st' w' r]: starting from the state function
    [st] and the objects [w], the machine's state functions return the
    immediate-transition sentinel [k] times in a row; the next
    invocation, of [st'], ends with [r], which is either a pair whose
    event is not the sentinel or an exception.  [calls] are the API calls
    made on the way and [w'] the objects at the end. *)
Inductive runs (now : Z)
  : St -> W -> nat -> list api_call -> St -> W -> returned St E -> Prop :=
| runs_returns st w next_state next calls w' :
    call P st now w = (Return next_state next, calls, w') ->
    next ≠ IMMEDATE_TRANSFER ->
    runs now st w 0 calls st w' (Return next_state next)
| runs_raises st w err calls w' :
    call P st now w = (Throw err, calls, w') ->
    runs now st w 0 calls st w' (Throw err)
| runs_immediate st w next_state calls w1 k calls' st' w' r :
    call P st now w = (Return next_state IMMEDATE_TRANSFER, calls, w1) ->
    runs now (default st next_state) w1 k calls' st' w' r ->
    runs now st w (S k) (calls ++ calls') st' w' r.

(** The event a machine ends an advancement with: the one its state
    function returned, or the originating one when it returned [None]. *)
Definition final_event (next : next_event) (event : option obj)
  : option obj :=
  match next with
  | NEvent e => Some e
  | NAbsent => event
  | IMMEDATE_TRANSFER => None
  end.

(** The tracker of an event, by capability: a Time Event goes to the Time
    Tracker, an Aggregate Event (both [triggered] and [waiting_on]) to the
    Aggregate Tracker, a plain Flag Event to the Flag Tracker. *)
Definition tracker_of (e : obj) (w : W) : option tracker_kind :=
  if has_next_deadline P e w then Some TimeT
  else if has_triggered P e w && has_waiting_on P e w then Some AggregateT
  else if has_triggered P e w then Some FlagT
  else None.

(** Every tracker entry, as (tracker, event), that lists [machine]. *)
Definition subscriptions (machine : obj) (s : sched W St)
  : list (tracker_kind * obj) :=
  ((fun e => (TimeT, e)) <$> EventTracker.events_of machine (time_events s))
  ++ ((fun e => (FlagT, e)) <$> EventTracker.events_of machine (flag_events s))
  ++ ((fun e => (AggregateT, e))
        <$> EventTracker.events_of machine (aggregate_events s)).

(** The scheduler just before the result of a state function is stored:
    counter incremented, invocation recorded, user code run. *)
Definition called (s : sched W St) (machine : obj) (n : Z) (st : St)
    (w : W) (calls : list api_call) : sched W St :=
  foldl api
    (set_world w
       (log (ACall machine st)
          (set_transitions (<[machine := n + 1]> (transitions s)) s)))
    calls.

Definition same_trackers (s s' : sched W St) : Prop :=
  time_events s' = time_events s /\
  flag_events s' = flag_events s /\
  aggregate_events s' = aggregate_events s.

(** [hasattr(machine, 'triggered') and machine.triggered()] *)
Definition triggered_now (machine : obj) (s : sched W St) : bool :=
  has_triggered P machine (world s) && triggered P machine (world s).

(** [advanced_in_turn fuel now event machines s snaps]: advancing the
    machines one after the other from [s] succeeds, and [snaps] lists the
    state right after each machine's own advancement. *)
Inductive advanced_in_turn (fuel : nat) (now : Z) (event : obj)
  : list obj -> sched W St -> list (sched W St) -> Prop :=
| ait_nil s : advanced_in_turn fuel now event [] s []
| ait_cons machine rest s s1 snaps :
    advance P fuel now machine (Some event) s = (Ok tt, s1) ->
    advanced_in_turn fuel now event rest s1 snaps ->
    advanced_in_turn fuel now event (machine :: rest) s (s1 :: snaps).

(** The reading of [process_event]'s result in the specification: the
    subscribers whose outstanding event, the one they are subscribed to
    after the advancement, is a Flag or Aggregate Event that is triggered. *)
Definition outstanding_triggered (machine : obj) (s : sched W St) : bool :=
  existsb (fun '(k, e) =>
             negb (bool_decide (k = TimeT)) && triggered P e (world s))
          (subscriptions machine s).

(** The record of a state-function call. *)
Definition is_call (a : action St) : bool :=
  match a with ACall _ _ => true | _ => false end.

(** The machines advanced in a stretch of the record, in order. *)
Definition advanced (l : list (action St)) : list obj :=
  omap (fun a => match a with AAdvance m _ => Some m | _ => None end) l.


(** [steps R c]: whatever its outcome, [c] takes a scheduler to one
    related to it by [R]. *)
Definition steps {A} (R : relation (sched W St)) (c : M W St E A) : Prop :=
  forall s, R s (c s).2.

(** A relation that the writes of [call_state] respect: the counter, the
    recorded state, the user's objects, the record, the API calls. *)
Record call_frame (R : relation (sched W St)) : Prop := {
  cf_preorder : PreOrder R;
  cf_transitions : forall s m, R s (set_transitions m s);
  cf_state : forall s m, R s (set_state m s);
  cf_world : forall s w, R s (set_world w s);
  cf_log : forall s a, R s (log a s);
  cf_api : forall s c, R s (api s c)
}.

(** The queues only get longer and the logical clock stands still. *)
Definition queues_grow (s s' : sched W St) : Prop :=
  pending_adds s `prefix_of` pending_adds s' /\
  pending_deletes s `prefix_of` pending_deletes s' /\
  state_clock s' = state_clock s.

Definition clock_stands (s s' : sched W St) : Prop :=
  state_clock s' = state_clock s.





(** The scheduler when the fired event has answered [happend]: the
    event's own update of the objects is made and the logical clock has
    advanced. *)
Definition fired (fired_event : obj) (now : Z) (s : sched W St)
  : sched W St :=
  set_state_clock (state_clock s + 1)
    (set_world (happend P fired_event now (world s)).2 s).


(** What [do_adds] records for one machine: an advancement without an
    originating event whose first call is the machine's [start]. *)
Definition started (machine : obj) (sts : list St) : list (action St) :=
  AAdvance machine None :: ACall machine (start P machine)
    :: (ACall machine <$> sts).

End Vocabulary.

(** * Properties *)

(** ** Concrete time events *)

Module PulserFacts.
Import Pulser.

Lemma happend_period self now : period (happend self now).2 = period self.
Proof. reflexivity. Qed.

Lemma happend_returns_true self now : (happend self now).1 = true.
Proof. reflexivity. Qed.

Lemma happend_deadline self now :
  deadline (happend self now).2 =
    if bool_decide (now > deadline self + period self)
    then now + period self else deadline self + period self.
Proof. reflexivity. Qed.

Lemma happend_grows self now :
  0 <= period self -> deadline self <= deadline (happend self now).2.
Proof. intros Hp. rewrite happend_deadline. case_bool_decide; lia. Qed.

Lemma calls_cons self now rest :
  calls self (now :: rest) =
    (true, deadline (happend self now).2) :: calls (happend self now).2 rest.
Proof. reflexivity. Qed.

Lemma deadlines_cons self now rest :
  deadlines self (now :: rest) =
    deadline self :: deadlines (happend self now).2 rest.
Proof. reflexivity. Qed.

Lemma calls_all_true self nows : Forall (fun r => r.1 = true) (calls self nows).
Proof.
  revert self. induction nows as [|now rest IH]; intros self.
  - constructor.
  - rewrite calls_cons. constructor; [reflexivity | apply IH].
Qed.

Lemma deadlines_non_decreasing self nows :
  0 <= period self -> non_decreasing (deadlines self nows).
Proof.
  revert self. induction nows as [|now rest IH]; intros self Hp.
  - exact I.
  - rewrite deadlines_cons.
    assert (Hnext : non_decreasing (deadlines (happend self now).2 rest))
      by (apply IH; rewrite happend_period; exact Hp).
    pose proof (happend_grows self now Hp) as Hle.
    destruct rest; (split; [exact Hle | exact Hnext]).
Qed.

Lemma deadlines_step self nows i now previous_deadline d :
  nows !! i = Some now ->
  deadlines self nows !! i = Some previous_deadline ->
  deadlines self nows !! S i = Some d ->
  d = if bool_decide (now > previous_deadline + period self)
      then now + period self else previous_deadline + period self.
Proof.
  revert self i. induction nows as [|t rest IH]; intros self i Hnow Hprev Hd.
  - rewrite lookup_nil in Hnow. discriminate.
  - rewrite deadlines_cons in Hprev, Hd. destruct i as [|i].
    + simpl in Hnow, Hprev, Hd.
      injection Hnow as ->. injection Hprev as <-.
      destruct rest; simpl in Hd; injection Hd as <-; apply happend_deadline.
    + simpl in Hnow, Hprev. rewrite lookup_cons in Hd.
      rewrite <- (happend_period self t). eapply IH; eassumption.
Qed.

(** C2.  Whatever times [happend] is called with (non-decreasing or
    not), for a pulser of non-negative period every call returns [True],
    the deadlines read by [next_deadline()] never decrease, and the
    deadline after a call at [now] is the previous deadline plus the
    period, unless [now] is past that, in which case it is [now] plus the
    period. *)
Theorem pulser_deadlines (self : Pulser.t) (nows : list Z) :
  0 <= period self ->
  Forall (fun r => r.1 = true) (calls self nows) /\
  non_decreasing (deadlines self nows) /\
  (forall i now previous_deadline d,
     nows !! i = Some now ->
     deadlines self nows !! i = Some previous_deadline ->
     deadlines self nows !! S i = Some d ->
     d = if bool_decide (now > previous_deadline + period self)
         then now + period self else previous_deadline + period self).
Proof.
  intros Hp. split; [apply calls_all_true|].
  split; [apply deadlines_non_decreasing; exact Hp|].
  intros i now previous_deadline d. apply deadlines_step.
Qed.

Lemma pulser_deadlines_witness :
  let self := Pulser.init 2 1000 in
  let nows := [2000000000; 7000000000; 7000000001] in
  0 <= period self /\
  deadlines self nows =
    [2000001000; 4000001000; 9000000000; 11000000000] /\
  non_decreasing (deadlines self nows).
Proof.
  split; [vm_compute; discriminate|].
  split; [reflexivity|].
  apply (pulser_deadlines (Pulser.init 2 1000)
           [2000000000; 7000000000; 7000000001]).
  vm_compute; discriminate.
Defined.

End PulserFacts.

Module OneShotFacts.
Import OneShot.

Lemma after_id self nows : after self nows = self.
Proof. induction nows as [|now rest IH]; [reflexivity | exact IH]. Qed.

(** C8.  [OneShot(now, period).next_deadline()] is [now + period], it is
    still so after any number of [happend] calls, and every [happend]
    call returns [True]. *)
Theorem oneshot_constant (now period : Z) (nows : list Z) (t : Z) :
  next_deadline (init now period) = now + period /\
  next_deadline (after (init now period) nows) = now + period /\
  (happend (after (init now period) nows) t).1 = true.
Proof.
  rewrite after_id. split; [reflexivity|]. split; reflexivity.
Qed.

End OneShotFacts.

(** ** Event trackers *)

Module EventTrackerFacts.
Import EventTracker.

Lemma remove_first_absent x l : x ∉ l -> remove_first x l = l.
Proof.
  induction l as [|y l IH]; intros Hx; [reflexivity|].
  simpl. destruct (decide (y = x)) as [->|Hne].
  - exfalso. apply Hx. left.
  - f_equal. apply IH. intros Hin. apply Hx. right. exact Hin.
Qed.

Lemma remove_first_filter x l :
  NoDup l -> remove_first x l = filter (fun y => y ≠ x) l.
Proof.
  induction 1 as [|y l Hy Hnd IH]; [reflexivity|].
  simpl. rewrite filter_cons. destruct (decide (y = x)) as [->|Hne].
  - destruct (decide (x ≠ x)) as [Hxx|_]; [congruence|].
    rewrite <- IH. symmetry. apply remove_first_absent. exact Hy.
  - destruct (decide (y ≠ x)) as [_|Hxx]; [|contradiction].
    f_equal. exact IH.
Qed.

Lemma delete_scan_spec machine tr :
  delete_scan machine tr =
    (strip machine <$> tr,
     (filter (fun p => p.2 = []) (strip machine <$> tr)).*1).
Proof.
  induction tr as [|[event machines] rest IH]; [reflexivity|].
  simpl. rewrite IH. rewrite filter_cons.
  change (strip machine (event, machines))
    with (event, remove_first machine machines).
  cbn [fst snd].
  assert (Hm : (if bool_decide (machine ∈ machines)
                then remove_first machine machines else machines)
               = remove_first machine machines).
  { case_bool_decide; [reflexivity|].
    symmetry. apply remove_first_absent. assumption. }
  rewrite Hm. clear Hm. f_equal.
  destruct (decide (remove_first machine machines = [])) as [Hnil|Hnil].
  - rewrite bool_decide_eq_true_2 by exact Hnil. reflexivity.
  - rewrite bool_decide_eq_false_2 by exact Hnil. reflexivity.
Qed.

Lemma keys_cons p tr : keys (p :: tr) = p.1 :: keys tr.
Proof. reflexivity. Qed.

Lemma NoDup_keys_cons e ms tr :
  NoDup (keys ((e, ms) :: tr)) -> (e ∉ keys tr) /\ NoDup (keys tr).
Proof. rewrite keys_cons. apply NoDup_cons. Qed.

Lemma keys_del k tr : keys (del k tr) `sublist_of` keys tr.
Proof.
  induction tr as [|[e ms] rest IH]; simpl; [constructor|].
  destruct (decide (e = k)); simpl.
  - apply sublist_cons. reflexivity.
  - apply sublist_skip. exact IH.
Qed.

Lemma del_absent k tr : k ∉ keys tr -> del k tr = tr.
Proof.
  induction tr as [|[e ms] rest IH]; intros Hk; [reflexivity|].
  simpl. destruct (decide (e = k)) as [->|Hne].
  - exfalso. apply Hk. left.
  - f_equal. apply IH. intros Hin. apply Hk. right. exact Hin.
Qed.

Lemma foldl_del_cons p tr ks :
  p.1 ∉ ks ->
  foldl (fun acc k => del k acc) (p :: tr) ks =
    p :: foldl (fun acc k => del k acc) tr ks.
Proof.
  revert tr. induction ks as [|k ks IH]; intros tr Hp; [reflexivity|].
  destruct p as [e ms]. simpl in *.
  destruct (decide (e = k)) as [->|Hne].
  - exfalso. apply Hp. left.
  - apply IH. intros Hin. apply Hp. right. exact Hin.
Qed.

Lemma foldl_del_filter (Q : obj * list obj -> Prop)
    `{!forall p, Decision (Q p)} tr :
  NoDup (keys tr) ->
  foldl (fun acc k => del k acc) tr (filter Q tr).*1 =
    filter (fun p => ¬ Q p) tr.
Proof.
  induction tr as [|[e ms] rest IH]; intros Hnd; [reflexivity|].
  apply NoDup_keys_cons in Hnd as [He Hnd].
  rewrite !filter_cons. destruct (decide (Q (e, ms))) as [HQ|HQ].
  - destruct (decide (¬ Q (e, ms))) as [HnQ|_]; [contradiction|].
    simpl. destruct (decide (e = e)); [|congruence]. apply IH. exact Hnd.
  - destruct (decide (¬ Q (e, ms))) as [_|HnQ]; [|contradiction].
    rewrite foldl_del_cons.
    + f_equal. apply IH. exact Hnd.
    + simpl. intros Hin. apply He.
      apply list_elem_of_fmap in Hin as [p [-> Hp]].
      apply list_elem_of_fmap. exists p. split; [reflexivity|].
      apply list_elem_of_filter in Hp. tauto.
Qed.

Lemma keys_strip machine tr : keys (strip machine <$> tr) = keys tr.
Proof.
  unfold keys. rewrite <- list_fmap_compose. apply list_fmap_ext.
  intros i [e ms] _. reflexivity.
Qed.

(** The two loops of [delete] amount to the one pass. *)
Lemma delete_spec machine tr :
  NoDup (keys tr) ->
  delete machine tr = filter (fun p => p.2 ≠ []) (strip machine <$> tr).
Proof.
  intros Hnd. unfold delete. rewrite delete_scan_spec.
  apply (foldl_del_filter (fun p => p.2 = [])).
  rewrite keys_strip. exact Hnd.
Qed.

Lemma keys_add machine event tr :
  keys (add machine event tr) =
    if decide (event ∈ keys tr) then keys tr else keys tr ++ [event].
Proof.
  induction tr as [|[e ms] rest IH]; simpl.
  - destruct (decide (event ∈ [])) as [Hin|_]; [|reflexivity].
    apply elem_of_nil in Hin. contradiction.
  - destruct (decide (e = event)) as [->|Hne]; simpl.
    + destruct (decide (event ∈ event :: keys rest)) as [_|Hn];
        [reflexivity|]. exfalso. apply Hn. left.
    + rewrite IH.
      destruct (decide (event ∈ keys rest)) as [Hin|Hnin];
        destruct (decide (event ∈ e :: keys rest)) as [Hin'|Hnin'];
        try reflexivity.
      * exfalso. apply Hnin'. right. exact Hin.
      * apply elem_of_cons in Hin' as [->|Hin']; [congruence|contradiction].
Qed.

Lemma reachable_keys tr : reachable tr -> NoDup (keys tr).
Proof.
  induction 1 as [|machine event tr _ IH|machine tr _ IH
                 |event tr rslt tr' _ IH Hdq].
  - constructor.
  - rewrite keys_add. destruct (decide (event ∈ keys tr)); [exact IH|].
    apply NoDup_app. split; [exact IH|]. split.
    + intros x Hx Hx'. apply list_elem_of_singleton in Hx'. congruence.
    + apply NoDup_singleton.
  - rewrite delete_spec by exact IH.
    apply (sublist_NoDup _ (keys (strip machine <$> tr))).
    + rewrite keys_strip. exact IH.
    + unfold keys. apply fmap_sublist, sublist_filter.
  - unfold dequeue in Hdq. destruct (lookup event tr); [|discriminate].
    injection Hdq as _ <-. eapply sublist_NoDup; [exact IH|apply keys_del].
Qed.

Lemma no_empty_add machine event tr :
  no_empty tr -> no_empty (add machine event tr).
Proof.
  unfold no_empty. induction 1 as [|[e ms] rest Hms Hrest IH]; simpl.
  - constructor; [discriminate|constructor].
  - destruct (decide (e = event)).
    + constructor; [|assumption]. simpl. intros Heq.
      apply app_eq_nil in Heq as [_ ?]. discriminate.
    + constructor; assumption.
Qed.

Lemma no_empty_del k tr : no_empty tr -> no_empty (del k tr).
Proof.
  unfold no_empty. induction 1 as [|[e ms] rest Hms Hrest IH]; simpl.
  - constructor.
  - destruct (decide (e = k)); [assumption|]. constructor; assumption.
Qed.

Lemma reachable_no_empty tr : reachable tr -> no_empty tr.
Proof.
  induction 1 as [|machine event tr _ IH|machine tr Hr IH
                 |event tr rslt tr' _ IH Hdq].
  - constructor.
  - apply no_empty_add. exact IH.
  - rewrite delete_spec by (apply reachable_keys; exact Hr).
    apply Forall_forall. intros p Hp. apply list_elem_of_filter in Hp. tauto.
  - unfold dequeue in Hdq. destruct (lookup event tr); [|discriminate].
    injection Hdq as _ <-. apply no_empty_del. exact IH.
Qed.

Lemma lookup_elem event machines tr :
  lookup event tr = Some machines -> (event, machines) ∈ tr.
Proof.
  induction tr as [|[e ms] rest IH]; simpl; [discriminate|].
  destruct (decide (e = event)) as [->|Hne].
  - intros [= ->]. left.
  - intros Hl. right. apply IH. exact Hl.
Qed.

Lemma elem_lookup event machines tr :
  NoDup (keys tr) -> (event, machines) ∈ tr ->
  lookup event tr = Some machines.
Proof.
  induction tr as [|[e ms] rest IH]; intros Hnd Hin.
  - apply elem_of_nil in Hin. contradiction.
  - apply NoDup_keys_cons in Hnd as [He Hnd]. simpl.
    apply elem_of_cons in Hin as [[= <- <-]|Hin].
    + destruct (decide (event = event)); [reflexivity|congruence].
    + destruct (decide (e = event)) as [->|Hne]; [|apply IH; assumption].
      exfalso. apply He. apply list_elem_of_fmap.
      exists (event, machines). split; [reflexivity|exact Hin].
Qed.

Lemma lookup_None event tr : lookup event tr = None <-> event ∉ keys tr.
Proof.
  induction tr as [|[e ms] rest IH]; simpl.
  - split; [intros _; apply not_elem_of_nil|reflexivity].
  - destruct (decide (e = event)) as [->|Hne].
    + split; [discriminate|]. intros Hn. exfalso. apply Hn. left.
    + rewrite IH. rewrite not_elem_of_cons.
      split; [intros ?; split; congruence|tauto].
Qed.

Lemma lookup_delete event machine tr :
  NoDup (keys tr) ->
  lookup event (delete machine tr) =
    match lookup event tr with
    | Some machines =>
        if decide (remove_first machine machines = []) then None
        else Some (remove_first machine machines)
    | None => None
    end.
Proof.
  intros Hnd. rewrite delete_spec by exact Hnd.
  induction tr as [|[e ms] rest IH]; [reflexivity|].
  apply NoDup_keys_cons in Hnd as [He Hnd]. specialize (IH Hnd).
  rewrite fmap_cons, filter_cons. unfold strip at 1 2. simpl.
  destruct (decide (e = event)) as [->|Hne].
  - destruct (decide (remove_first machine ms ≠ [])) as [Hn|Hn];
      destruct (decide (remove_first machine ms = [])) as [Hn'|Hn'];
      try contradiction.
    + simpl. destruct (decide (event = event)); [reflexivity|congruence].
    + apply lookup_None. intros Hin. apply He.
      rewrite <- (keys_strip machine).
      eapply elem_of_sublist; [exact Hin|].
      unfold keys. apply fmap_sublist, sublist_filter.
  - destruct (decide (remove_first machine ms ≠ [])); [|exact IH].
    simpl. destruct (decide (e = event)); [congruence|exact IH].
Qed.

Lemma delete_absent machine tr :
  NoDup (keys tr) -> no_empty tr ->
  (forall event machines,
     lookup event tr = Some machines -> machine ∉ machines) ->
  delete machine tr = tr.
Proof.
  intros Hnd Hne Habs. rewrite delete_spec by exact Hnd.
  assert (Hstrip : strip machine <$> tr = tr).
  { rewrite <- (list_fmap_id tr) at 2. apply list_fmap_ext.
    intros i [e ms] Hi. unfold strip. simpl. f_equal.
    apply remove_first_absent. apply (Habs e).
    apply elem_lookup; [exact Hnd|].
    apply list_elem_of_lookup. exists i. exact Hi. }
  rewrite Hstrip. clear Hstrip Habs Hnd.
  induction Hne as [|p rest Hp _ IH]; [reflexivity|].
  rewrite filter_cons_True by exact Hp. f_equal. exact IH.
Qed.

Lemma events_of_cons machine e ms tr :
  events_of machine ((e, ms) :: tr) =
    if decide (machine ∈ ms) then e :: events_of machine tr
    else events_of machine tr.
Proof.
  unfold events_of. rewrite filter_cons. simpl.
  destruct (decide (machine ∈ ms)); reflexivity.
Qed.

Lemma events_of_add machine event tr :
  events_of machine tr = [] ->
  events_of machine (add machine event tr) = [event].
Proof.
  induction tr as [|[e ms] rest IH]; intros Hnone.
  - simpl. rewrite events_of_cons.
    destruct (decide (machine ∈ [machine])) as [_|Hn]; [reflexivity|].
    exfalso. apply Hn. left.
  - rewrite events_of_cons in Hnone.
    destruct (decide (machine ∈ ms)) as [|Hms]; [discriminate|].
    simpl. destruct (decide (e = event)) as [->|Hne].
    + rewrite events_of_cons.
      destruct (decide (machine ∈ ms ++ [machine])) as [_|Hn].
      * rewrite Hnone. reflexivity.
      * exfalso. apply Hn. apply elem_of_app. right. left.
    + rewrite events_of_cons.
      destruct (decide (machine ∈ ms)); [contradiction|].
      apply IH. exact Hnone.
Qed.

Lemma lookup_add machine event tr :
  lookup event (add machine event tr) =
    Some (default [] (lookup event tr) ++ [machine]).
Proof.
  induction tr as [|[e ms] rest IH]; simpl.
  - destruct (decide (event = event)); [reflexivity|congruence].
  - destruct (decide (e = event)) as [->|Hne]; simpl.
    + destruct (decide (event = event)); [reflexivity|congruence].
    + destruct (decide (e = event)); [congruence|exact IH].
Qed.

Lemma elem_events_of machine event machines tr :
  lookup event tr = Some machines -> machine ∈ machines ->
  event ∈ events_of machine tr.
Proof.
  intros Hl Hin. unfold events_of. apply list_elem_of_fmap.
  exists (event, machines). split; [reflexivity|].
  apply list_elem_of_filter. split; [exact Hin|].
  apply lookup_elem. exact Hl.
Qed.

(** C7, as the code has it.  On every tracker the scheduler can have
    built, [delete(machine)] takes the first occurrence of [machine] out
    of every subscriber list that holds it ([list.remove]) and drops the
    entries left without subscribers, so no list is empty afterwards;
    when [machine] was in no list the tracker is unchanged; and no
    tracker the scheduler can build has an empty subscriber list.  Where
    the subscriber lists hold no machine twice, each entry keeps the
    subscribers it had except [machine], and [machine] is in no list
    afterwards. *)
Theorem delete_unsubscribes (tr : t) (machine : obj) :
  reachable tr ->
  (forall event,
     lookup event (delete machine tr) =
       match lookup event tr with
       | Some machines =>
           if decide (remove_first machine machines = []) then None
           else Some (remove_first machine machines)
       | None => None
       end) /\
  (forall event machines,
     lookup event (delete machine tr) = Some machines -> machines ≠ []) /\
  (subscribers_distinct tr ->
   (forall event,
      lookup event (delete machine tr) =
        match lookup event tr with
        | Some machines =>
            let others := filter (fun m => m ≠ machine) machines in
            if decide (others = []) then None else Some others
        | None => None
        end) /\
   (forall event machines,
      lookup event (delete machine tr) = Some machines ->
      machine ∉ machines)) /\
  ((forall event machines,
      lookup event tr = Some machines -> machine ∉ machines) ->
   delete machine tr = tr) /\
  no_empty tr /\ no_empty (delete machine tr).
Proof.
  intros Hr.
  pose proof (reachable_keys tr Hr) as Hnd.
  pose proof (reachable_no_empty tr Hr) as Hne.
  split; [intros event; apply lookup_delete, Hnd|].
  split; [|split; [|split; [|split]]].
  - intros event machines Hl. rewrite lookup_delete in Hl by exact Hnd.
    destruct (lookup event tr) as [ms|]; [|discriminate].
    destruct (decide (remove_first machine ms = [])) as [|Hn];
      [discriminate|].
    injection Hl as <-. exact Hn.
  - intros Hdist.
    assert (Hlk : forall event,
       lookup event (delete machine tr) =
         match lookup event tr with
         | Some machines =>
             let others := filter (fun m => m ≠ machine) machines in
             if decide (others = []) then None else Some others
         | None => None
         end).
    { intros event. rewrite lookup_delete by exact Hnd.
      destruct (lookup event tr) as [machines|] eqn:Hl; [|reflexivity].
      rewrite remove_first_filter; [reflexivity|].
      apply lookup_elem in Hl. unfold subscribers_distinct in Hdist.
      rewrite Forall_forall in Hdist. apply (Hdist _ Hl). }
    split; [exact Hlk|].
    intros event machines Hl. rewrite Hlk in Hl.
    destruct (lookup event tr) as [ms|]; [|discriminate]. simpl in Hl.
    destruct (decide (filter (fun m => m ≠ machine) ms = [])) as [|Hn];
      [discriminate|].
    injection Hl as <-.
    intros Hin. apply list_elem_of_filter in Hin as [Hneq _]. congruence.
  - apply delete_absent; assumption.
  - exact Hne.
  - apply reachable_no_empty. constructor. exact Hr.
Qed.

Lemma delete_unsubscribes_witness :
  let tr := add 7%nat 1%nat (add 8%nat 2%nat (add 9%nat 1%nat empty)) in
  reachable tr /\ subscribers_distinct tr /\
  delete 8%nat tr = [(1%nat, [9%nat; 7%nat])] /\
  lookup 2%nat (delete 8%nat tr) = None /\
  no_empty (delete 8%nat tr).
Proof.
  assert (Hr : reachable
                 (add 7%nat 1%nat (add 8%nat 2%nat (add 9%nat 1%nat empty))))
    by (repeat constructor).
  assert (Hd : subscribers_distinct
                 (add 7%nat 1%nat (add 8%nat 2%nat (add 9%nat 1%nat empty)))).
  { unfold subscribers_distinct.
    apply (bool_decide_unpack (Forall (fun p => NoDup p.2) _)). reflexivity. }
  split; [exact Hr|]. split; [exact Hd|]. split; [reflexivity|].
  destruct (delete_unsubscribes _ 8%nat Hr) as (Hlk & _ & _ & _ & _ & Hne).
  split; [rewrite Hlk; reflexivity|exact Hne].
Defined.

(** C7 as stated fails where a machine is listed twice, which happens
    when it is registered twice: the machine subscribed twice to event 0
    is still subscribed to it after [delete]. *)
Lemma delete_leaves_duplicate :
  let tr := add 1%nat 0%nat (add 1%nat 0%nat empty) in
  reachable tr /\
  lookup 0%nat tr = Some [1%nat; 1%nat] /\
  lookup 0%nat (delete 1%nat tr) = Some [1%nat] /\
  1%nat ∈ subscribers 0%nat (delete 1%nat tr).
Proof.
  intros tr. split; [repeat constructor|]. split; [reflexivity|].
  split; [reflexivity|]. left.
Qed.

End EventTrackerFacts.

(** ** The scheduler *)

Section SchedulerFacts.

Context {W St E : Type}.
Variable P : program W St E.
Implicit Types (s : sched W St) (machine x : obj) (calls : list api_call).

(** *** Calls of the registration API from user code *)

Lemma same_trackers_refl s : same_trackers s s.
Proof. repeat split. Qed.

Lemma same_trackers_trans s1 s2 s3 :
  same_trackers s1 s2 -> same_trackers s2 s3 -> same_trackers s1 s3.
Proof.
  intros (H1 & H2 & H3) (H1' & H2' & H3').
  repeat split; congruence.
Qed.

Lemma register_frame machines s :
  let s' := register_machine machines s in
  world s' = world s /\ state s' = state s /\ same_trackers s s' /\
  trace s' = trace s.
Proof.
  unfold register_machine. simpl.
  revert s. induction machines as [|m rest IH]; intros s; simpl.
  - repeat split.
  - destruct (IH (set_transitions (<[m:=0]> (transitions s)) s))
      as (Hw & Hs & (Ht & Hf & Ha) & Hl).
    simpl in *. repeat split; assumption.
Qed.

Lemma register_transitions machines s x :
  (x ∉ machines ->
   transitions (register_machine machines s) !! x = transitions s !! x) /\
  (is_Some (transitions s !! x) ->
   is_Some (transitions (register_machine machines s) !! x)).
Proof.
  unfold register_machine. simpl.
  revert s. induction machines as [|m rest IH]; intros s; simpl.
  - split; [reflexivity | exact id].
  - destruct (IH (set_transitions (<[m:=0]> (transitions s)) s)) as [IH1 IH2].
    simpl in IH1, IH2. split.
    + intros Hx. apply not_elem_of_cons in Hx as [Hne Hx].
      rewrite IH1 by exact Hx. apply lookup_insert_ne. congruence.
    + intros Hsome. apply IH2. destruct (decide (m = x)) as [->|Hne].
      * rewrite lookup_insert_eq. eexists; reflexivity.
      * rewrite lookup_insert_ne by exact Hne. exact Hsome.
Qed.

Lemma api_frame s c :
  world (api s c) = world s /\ state (api s c) = state s /\
  same_trackers s (api s c) /\ trace (api s c) = trace s.
Proof.
  destruct c as [machines|machines]; simpl.
  - apply register_frame.
  - repeat split.
Qed.

Lemma api_calls_frame calls s :
  let s' := foldl api s calls in
  world s' = world s /\ state s' = state s /\ same_trackers s s' /\
  trace s' = trace s.
Proof.
  revert s. induction calls as [|c rest IH]; intros s; simpl.
  - repeat split.
  - destruct (IH (api s c)) as (Hw & Hs & Ht & Hl).
    destruct (api_frame s c) as (Hw' & Hs' & Ht' & Hl').
    split; [congruence|]. split; [congruence|].
    split; [eapply same_trackers_trans; eassumption | congruence].
Qed.

Lemma registered_app calls calls' :
  registered (calls ++ calls') = registered calls ++ registered calls'.
Proof. unfold registered. apply bind_app. Qed.

Lemma api_calls_transitions calls s x :
  (x ∉ registered calls ->
   transitions (foldl api s calls) !! x = transitions s !! x) /\
  (is_Some (transitions s !! x) ->
   is_Some (transitions (foldl api s calls) !! x)).
Proof.
  revert s. induction calls as [|c rest IH]; intros s; cbn [foldl].
  - split; [reflexivity | exact id].
  - destruct (IH (api s c)) as [IH1 IH2].
    change (registered (c :: rest)) with (registered ([c] ++ rest)).
    rewrite registered_app.
    destruct c as [machines|machines]; cbn [api] in *.
    + destruct (register_transitions machines s x) as [R1 R2]. split.
      * intros Hx. apply not_elem_of_app in Hx as [Hx1 Hx2].
        unfold registered in Hx1. simpl in Hx1. rewrite app_nil_r in Hx1.
        rewrite IH1 by exact Hx2. apply R1. exact Hx1.
      * intros Hsome. apply IH2, R2. exact Hsome.
    + split.
      * intros Hx. apply IH1. exact Hx.
      * intros Hsome. apply IH2. exact Hsome.
Qed.

(** *** One call of a state function *)

Lemma call_state_eq now machine event s n st r calls w :
  transitions s !! machine = Some n ->
  state s !! machine = Some st ->
  call P st now (world s) = (r, calls, w) ->
  call_state P now machine event s =
    match r with
    | Return next_state next =>
        (Ok next,
         set_state (<[machine := default st next_state]>
                      (state (called s machine n st w calls)))
                   (called s machine n st w calls))
    | Throw err => (Raised (StateError err), called s machine n st w calls)
    end.
Proof.
  intros Hn Hst Hcall.
  unfold call_state, bind, getattr, modify, invoke, ret. rewrite Hn.
  cbn [state set_transitions]. rewrite Hst.
  cbn [world log set_transitions]. rewrite Hcall.
  destruct r; reflexivity.
Qed.

Lemma called_frame s machine n st w calls :
  let s' := called s machine n st w calls in
  world s' = w /\ state s' = state s /\ same_trackers s s' /\
  trace s' = trace s ++ [ACall machine st] /\
  (machine ∉ registered calls -> transitions s' !! machine = Some (n + 1)) /\
  is_Some (transitions s' !! machine).
Proof.
  unfold called. simpl.
  match goal with |- context [foldl api ?s0 calls] => set (s1 := s0) end.
  destruct (api_calls_frame calls s1) as (Hw & Hs & Ht & Hl).
  destruct (api_calls_transitions calls s1 machine) as [T1 T2].
  split; [exact Hw|]. split; [exact Hs|]. split; [exact Ht|].
  split; [exact Hl|]. split.
  - intros Hx. rewrite T1 by exact Hx. apply lookup_insert_eq.
  - apply T2. simpl. rewrite lookup_insert_eq. eexists; reflexivity.
Qed.

(** *** The loop of [advance] *)

(** A run of the machine's state functions, as [runs] describes it, is
    what the loop of [advance] executes, given fuel for its [k+1] calls. *)
Lemma advance_loop_runs now machine event st w k calls st' w' r :
  runs P now st w k calls st' w' r ->
  forall s n fuel,
    world s = w ->
    state s !! machine = Some st ->
    transitions s !! machine = Some n ->
    (k < fuel)%nat ->
    exists s1 sts,
      advance_loop P fuel now machine event s =
        (match r with
         | Return _ next => Ok next
         | Throw err => Raised (StateError err)
         end, s1) /\
      world s1 = w' /\
      state s1 !! machine =
        Some (match r with
              | Return next_state _ => default st' next_state
              | Throw _ => st'
              end) /\
      (machine ∉ registered calls ->
       transitions s1 !! machine = Some (n + Z.of_nat k + 1)) /\
      same_trackers s s1 /\
      trace s1 = trace s ++ (ACall machine <$> sts) /\
      length sts = S k /\
      last sts = Some st'.
Proof.
  induction 1 as [st w next_state next calls w' Hcall Hnext
                 |st w err calls w' Hcall
                 |st w next_state calls w1 k calls' st' w' r Hcall Hruns IH];
    intros s n fuel Hw Hst Hn Hfuel;
    (destruct fuel as [|fuel]; [lia|]); subst w;
    cbn [advance_loop]; unfold bind;
    rewrite (call_state_eq _ _ _ _ _ _ _ _ _ Hn Hst Hcall);
    match type of Hcall with
    | _ = (_, _, ?w0) =>
        destruct (called_frame s machine n st w0 calls)
          as (Cw & Cs & Ct & Cl & Cn & Csome)
    end.
  - destruct (decide (next = IMMEDATE_TRANSFER)) as [?|_]; [contradiction|].
    eexists _, [st]. split; [reflexivity|].
    split; [exact Cw|]. split; [simpl; apply lookup_insert_eq|].
    split; [intros Hx; simpl; rewrite (Cn Hx); f_equal; lia|].
    split; [exact Ct|]. split; [exact Cl|]. split; reflexivity.
  - eexists _, [st]. split; [reflexivity|].
    split; [exact Cw|]. split; [rewrite Cs; exact Hst|].
    split; [intros Hx; rewrite (Cn Hx); f_equal; lia|].
    split; [exact Ct|]. split; [exact Cl|]. split; reflexivity.
  - destruct (decide (IMMEDATE_TRANSFER = IMMEDATE_TRANSFER)) as [_|?];
      [|contradiction].
    destruct Csome as [n2 Hn2].
    match goal with |- context [advance_loop P fuel now machine event ?s0] =>
      set (s2 := s0) end.
    destruct (IH s2 n2 fuel) as (s1 & sts & Hrun & Hw1 & Hst1 & Hn1 & Ht1
                                   & Hl1 & Hlen & Hlast).
    + exact Cw.
    + simpl. apply lookup_insert_eq.
    + exact Hn2.
    + lia.
    + exists s1, (st :: sts). split; [exact Hrun|].
      split; [exact Hw1|]. split; [exact Hst1|]. split.
      * intros Hx. rewrite registered_app in Hx.
        apply not_elem_of_app in Hx as [Hx1 Hx2].
        rewrite (Hn1 Hx2). rewrite (Cn Hx1) in Hn2.
        injection Hn2 as <-. f_equal. lia.
      * split; [eapply same_trackers_trans; [exact Ct|exact Ht1]|].
        split; [rewrite Hl1; subst s2; cbn [trace set_state]; rewrite Cl;
                rewrite <- app_assoc; reflexivity|].
        split; [simpl; rewrite Hlen; reflexivity|].
        destruct sts; [discriminate|exact Hlast].
Qed.

(** Fuel only bounds the loop: once it suffices, more changes nothing. *)
Lemma advance_loop_more_fuel fuel fuel' now machine event s r s' :
  advance_loop P fuel now machine event s = (r, s') ->
  r ≠ OutOfFuel ->
  (fuel <= fuel')%nat ->
  advance_loop P fuel' now machine event s = (r, s').
Proof.
  revert fuel' s. induction fuel as [|fuel IH]; intros fuel' s Hrun Hr Hle.
  - injection Hrun as <- _. contradiction.
  - destruct fuel' as [|fuel']; [lia|].
    cbn [advance_loop] in *. unfold bind in *.
    destruct (call_state P now machine event s) as [[next|e|] s1];
      [|exact Hrun|exact Hrun].
    destruct (decide (next = IMMEDATE_TRANSFER)); [|exact Hrun].
    apply IH; [exact Hrun|exact Hr|lia].
Qed.

Lemma runs_not_immediate now st w k calls st' w' next_state next :
  runs P now st w k calls st' w' (Return next_state next) ->
  next ≠ IMMEDATE_TRANSFER.
Proof.
  intros Hruns. remember (Return next_state next) as r eqn:Hr.
  induction Hruns as [? ? ? ? ? ? _ Hnext| |? ? ? ? ? ? ? ? ? ? _ _ IH].
  - injection Hr as _ <-. exact Hnext.
  - discriminate.
  - apply IH. exact Hr.
Qed.

(** *** [advance] *)

(** Where [advance] leaves the scheduler after a run of state functions
    that ends with a pair: [s1] is the scheduler when the loop is left. *)
Lemma advance_runs now machine event st k calls st' w' next_state next s n
    fuel :
  runs P now st (world s) k calls st' w' (Return next_state next) ->
  state s !! machine = Some st ->
  transitions s !! machine = Some n ->
  (k < fuel)%nat ->
  exists s1 sts,
    world s1 = w' /\
    state s1 !! machine = Some (default st' next_state) /\
    (machine ∉ registered calls ->
     transitions s1 !! machine = Some (n + Z.of_nat k + 1)) /\
    same_trackers s s1 /\
    trace s1 = trace s ++ AAdvance machine event :: (ACall machine <$> sts) /\
    length sts = S k /\
    last sts = Some st' /\
    advance P fuel now machine event s =
      match final_event next event with
      | None => (Ok tt, s1)
      | Some e =>
          if has_next_deadline P e w' then
            if type_is_int (next_deadline P e w')
            then (Ok tt,
                  set_tracker TimeT
                    (EventTracker.add machine e (time_events s1)) s1)
            else (Raised (AssertionError (next_deadline P e w') e machine),
                  s1)
          else if has_triggered P e w' then
            if has_waiting_on P e w'
            then (Ok tt,
                  set_tracker AggregateT
                    (EventTracker.add machine e (aggregate_events s1)) s1)
            else (Ok tt,
                  set_tracker FlagT
                    (EventTracker.add machine e (flag_events s1)) s1)
          else (Ok tt, s1)
      end.
Proof.
  intros Hruns Hst Hn Hfuel.
  destruct (advance_loop_runs now machine event _ _ _ _ _ _ _ Hruns
              (log (AAdvance machine event) s) n fuel)
    as (s1 & sts & Hloop & Hw1 & Hst1 & Hn1 & Ht1 & Hl1 & Hlen & Hlast);
    [reflexivity|exact Hst|exact Hn|exact Hfuel|].
  exists s1, sts.
  split; [exact Hw1|]. split; [exact Hst1|]. split; [exact Hn1|].
  split; [exact Ht1|].
  split; [rewrite Hl1; simpl; rewrite <- app_assoc; reflexivity|].
  split; [exact Hlen|]. split; [exact Hlast|].
  unfold advance, bind, modify. rewrite Hloop.
  pose proof (runs_not_immediate _ _ _ _ _ _ _ _ _ Hruns) as Hnext.
  unfold final_event.
  destruct next as [e| |]; [| |contradiction].
  - unfold gets, tracker_add, modify, raise, ret. rewrite Hw1.
    destruct (has_next_deadline P e w').
    + destruct (type_is_int (next_deadline P e w')); reflexivity.
    + destruct (has_triggered P e w'); [|reflexivity].
      destruct (has_waiting_on P e w'); reflexivity.
  - destruct event as [e|]; [|reflexivity].
    unfold gets, tracker_add, modify, raise, ret. rewrite Hw1.
    destruct (has_next_deadline P e w').
    + destruct (type_is_int (next_deadline P e w')); reflexivity.
    + destruct (has_triggered P e w'); [|reflexivity].
      destruct (has_waiting_on P e w'); reflexivity.
Qed.

(** A run that ends with a subscribable event leaves the machine added
    to that event's tracker. *)
Lemma advance_subscribes now machine event st k calls st' w' next_state next
    s n fuel e kind :
  runs P now st (world s) k calls st' w' (Return next_state next) ->
  state s !! machine = Some st ->
  transitions s !! machine = Some n ->
  (k < fuel)%nat ->
  final_event next event = Some e ->
  tracker_of P e w' = Some kind ->
  (has_next_deadline P e w' = true ->
   type_is_int (next_deadline P e w') = true) ->
  exists s1 sts,
    world s1 = w' /\
    state s1 !! machine = Some (default st' next_state) /\
    (machine ∉ registered calls ->
     transitions s1 !! machine = Some (n + Z.of_nat k + 1)) /\
    same_trackers s s1 /\
    trace s1 = trace s ++ AAdvance machine event :: (ACall machine <$> sts) /\
    length sts = S k /\
    last sts = Some st' /\
    advance P fuel now machine event s =
      (Ok tt,
       set_tracker kind (EventTracker.add machine e (tracker kind s1)) s1).
Proof.
  intros Hruns Hst Hn Hfuel Hfinal Hkind Hint.
  destruct (advance_runs now machine event _ _ _ _ _ _ _ s n fuel
              Hruns Hst Hn Hfuel)
    as (s1 & sts & Hw1 & Hst1 & Hn1 & Ht1 & Hl1 & Hlen & Hlast & Hadv).
  exists s1, sts. repeat (split; [assumption|]).
  rewrite Hadv, Hfinal. unfold tracker_of in Hkind.
  destruct (has_next_deadline P e w').
  - rewrite Hint by reflexivity. injection Hkind as <-. reflexivity.
  - destruct (has_triggered P e w'); [|discriminate].
    destruct (has_waiting_on P e w'); injection Hkind as <-; reflexivity.
Qed.

Lemma subscriptions_same s s' machine :
  same_trackers s s' -> subscriptions machine s' = subscriptions machine s.
Proof. intros (Ht & Hf & Ha). unfold subscriptions. congruence. Qed.

Lemma subscriptions_add s machine e kind :
  subscriptions machine s = [] ->
  subscriptions machine
    (set_tracker kind (EventTracker.add machine e (tracker kind s)) s)
  = [(kind, e)].
Proof.
  unfold subscriptions. intros Hnone.
  apply app_eq_nil in Hnone as [Ht Hrest].
  apply app_eq_nil in Hrest as [Hf Ha].
  apply fmap_nil_inv in Ht, Hf, Ha.
  destruct kind; simpl;
    rewrite ?Ht, ?Hf, ?Ha;
    rewrite EventTrackerFacts.events_of_add by assumption; reflexivity.
Qed.


Lemma runs_zero now st w calls st' w' r :
  runs P now st w 0 calls st' w' r -> st' = st.
Proof. inversion 1; reflexivity. Qed.

Lemma subscribed_after_add s machine e kind :
  (kind, e) ∈ subscriptions machine
    (set_tracker kind (EventTracker.add machine e (tracker kind s)) s).
Proof.
  assert (Hin : forall tr,
    e ∈ EventTracker.events_of machine (EventTracker.add machine e tr)).
  { intros tr. eapply EventTrackerFacts.elem_events_of.
    - apply EventTrackerFacts.lookup_add.
    - apply elem_of_app. right. left. }
  unfold subscriptions. destruct kind; simpl.
  - apply elem_of_app. left.
    apply (list_elem_of_fmap_2 (fun e => (TimeT, e))), Hin.
  - apply elem_of_app. right. apply elem_of_app. left.
    apply (list_elem_of_fmap_2 (fun e => (FlagT, e))), Hin.
  - apply elem_of_app. right. apply elem_of_app. right.
    apply (list_elem_of_fmap_2 (fun e => (AggregateT, e))), Hin.
Qed.

(** C4.  A machine is advanced on event [e] and the state function
    [st'] that ends the advancement returns [(None, None)].  Then the
    recorded state is still [st'] (the state the machine had when the
    advancement began, if no immediate transition came before), and the
    machine has been appended to the subscribers of [e] in the tracker
    of [e]'s kind. *)
Theorem advance_self_loop now machine e st k calls st' w' s n fuel kind :
  runs P now st (world s) k calls st' w' (Return None NAbsent) ->
  state s !! machine = Some st ->
  transitions s !! machine = Some n ->
  (k < fuel)%nat ->
  tracker_of P e w' = Some kind ->
  (has_next_deadline P e w' = true ->
   type_is_int (next_deadline P e w') = true) ->
  exists s',
    advance P fuel now machine (Some e) s = (Ok tt, s') /\
    state s' !! machine = Some st' /\
    (k = 0%nat -> st' = st) /\
    tracker kind s' = EventTracker.add machine e (tracker kind s) /\
    (kind, e) ∈ subscriptions machine s'.
Proof.
  intros Hruns Hst Hn Hfuel Hkind Hint.
  destruct (advance_subscribes now machine (Some e) _ _ _ _ _ _ _ s n fuel
              e kind Hruns Hst Hn Hfuel eq_refl Hkind Hint)
    as (s1 & sts & Hw1 & Hst1 & Hn1 & (Ht & Hf & Ha) & Hl1 & Hlen & Hlast
        & Hadv).
  eexists. split; [exact Hadv|].
  split; [destruct kind; exact Hst1|].
  split; [intros ->; eapply runs_zero; exact Hruns|].
  split; [destruct kind; simpl; congruence|].
  apply subscribed_after_add.
Qed.

(** C5.  The state functions of a machine return the sentinel [k] times
    and the next invocation, of [st'], raises [err].  Then [advance]
    raises that same [err]; the transition counter has been incremented
    for the failed invocation as for the [k] before it; the recorded
    state is [st'], the function that raised; no tracker has changed. *)
Theorem advance_propagates_failure now machine event st k calls st' w' err
    s n fuel :
  runs P now st (world s) k calls st' w' (Throw err) ->
  state s !! machine = Some st ->
  transitions s !! machine = Some n ->
  (k < fuel)%nat ->
  machine ∉ registered calls ->
  exists s',
    advance P fuel now machine event s = (Raised (StateError err), s') /\
    transitions s' !! machine = Some (n + Z.of_nat k + 1) /\
    state s' !! machine = Some st' /\
    same_trackers s s'.
Proof.
  intros Hruns Hst Hn Hfuel Hreg.
  destruct (advance_loop_runs now machine event _ _ _ _ _ _ _ Hruns
              (log (AAdvance machine event) s) n fuel)
    as (s1 & sts & Hloop & Hw1 & Hst1 & Hn1 & Ht1 & Hl1 & Hlen & Hlast);
    [reflexivity|exact Hst|exact Hn|exact Hfuel|].
  exists s1. split.
  - unfold advance, bind, modify. rewrite Hloop. reflexivity.
  - split; [apply Hn1; exact Hreg|]. split; [exact Hst1|exact Ht1].
Qed.

(** C6.  The advancement of a machine ends with a final event that has
    [next_deadline].  If the deadline is not an [int], [advance] raises
    the assertion error at once and no tracker has changed, so the
    machine is subscribed to what it was subscribed to before and has not
    been added to the Time Tracker; if it is an [int], [advance] returns
    normally and has appended the machine to the subscribers of the event
    in the Time Tracker: the event is a key of the Time Tracker, its
    subscribers are those it had followed by the machine, the machine is
    subscribed to it, and the other two trackers are as they were. *)
Theorem advance_checks_deadline now machine event st k calls st' w'
    next_state next s n fuel e :
  runs P now st (world s) k calls st' w' (Return next_state next) ->
  state s !! machine = Some st ->
  transitions s !! machine = Some n ->
  (k < fuel)%nat ->
  final_event next event = Some e ->
  has_next_deadline P e w' = true ->
  exists r s',
    advance P fuel now machine event s = (r, s') /\
    (type_is_int (next_deadline P e w') = false ->
     r = Raised (AssertionError (next_deadline P e w') e machine) /\
     same_trackers s s' /\
     subscriptions machine s' = subscriptions machine s) /\
    (type_is_int (next_deadline P e w') = true ->
     r = Ok tt /\
     time_events s' = EventTracker.add machine e (time_events s) /\
     EventTracker.lookup e (time_events s') =
       Some (EventTracker.subscribers e (time_events s) ++ [machine]) /\
     machine ∈ EventTracker.subscribers e (time_events s') /\
     (TimeT, e) ∈ subscriptions machine s' /\
     flag_events s' = flag_events s /\
     aggregate_events s' = aggregate_events s).
Proof.
  intros Hruns Hst Hn Hfuel Hfinal Hhas.
  destruct (advance_runs now machine event _ _ _ _ _ _ _ s n fuel
              Hruns Hst Hn Hfuel)
    as (s1 & sts & Hw1 & Hst1 & Hn1 & Hsame & Hl1 & Hlen & Hlast & Hadv).
  pose proof Hsame as (Ht & Hf & Ha).
  rewrite Hfinal, Hhas in Hadv.
  destruct (type_is_int (next_deadline P e w')) eqn:Hint.
  - eexists _, _. split; [exact Hadv|]. split; [discriminate|].
    intros _. split; [reflexivity|].
    assert (Hlk : EventTracker.lookup e
                    (EventTracker.add machine e (time_events s1)) =
                  Some (EventTracker.subscribers e (time_events s)
                          ++ [machine])).
    { rewrite EventTrackerFacts.lookup_add, Ht. reflexivity. }
    split; [simpl; congruence|]. split; [exact Hlk|]. split.
    { change (machine ∈ default [] (EventTracker.lookup e
                         (EventTracker.add machine e (time_events s1)))).
      rewrite Hlk. apply elem_of_app. right. left. }
    split; [apply (subscribed_after_add s1 machine e TimeT)|].
    split; [exact Hf|exact Ha].
  - eexists _, _. split; [exact Hadv|]. split; [|discriminate].
    intros _. split; [reflexivity|]. split; [exact Hsame|].
    apply subscriptions_same, Hsame.
Qed.

(** C10.  The advancement of a machine ends with a final event that has
    both [next_deadline] and [triggered].  Then [advance] leaves the Flag
    and Aggregate trackers as they were, and, the deadline being an
    [int], returns normally having appended the machine to the
    subscribers of the event in the Time Tracker. *)
Theorem advance_time_first now machine event st k calls st' w'
    next_state next s n fuel e :
  runs P now st (world s) k calls st' w' (Return next_state next) ->
  state s !! machine = Some st ->
  transitions s !! machine = Some n ->
  (k < fuel)%nat ->
  final_event next event = Some e ->
  has_next_deadline P e w' = true ->
  has_triggered P e w' = true ->
  exists r s',
    advance P fuel now machine event s = (r, s') /\
    flag_events s' = flag_events s /\
    aggregate_events s' = aggregate_events s /\
    (type_is_int (next_deadline P e w') = true ->
     r = Ok tt /\
     time_events s' = EventTracker.add machine e (time_events s) /\
     (subscriptions machine s = [] ->
      subscriptions machine s' = [(TimeT, e)])).
Proof.
  intros Hruns Hst Hn Hfuel Hfinal Hhas _.
  destruct (advance_runs now machine event _ _ _ _ _ _ _ s n fuel
              Hruns Hst Hn Hfuel)
    as (s1 & sts & Hw1 & Hst1 & Hn1 & Hsame & Hl1 & Hlen & Hlast & Hadv).
  pose proof Hsame as (Ht & Hf & Ha).
  rewrite Hfinal, Hhas in Hadv.
  destruct (type_is_int (next_deadline P e w')) eqn:Hint.
  - eexists _, _. split; [exact Hadv|]. split; [exact Hf|].
    split; [exact Ha|]. intros _. split; [reflexivity|].
    split; [simpl; congruence|]. intros Hnone.
    apply (subscriptions_add s1 machine e TimeT).
    rewrite (subscriptions_same s s1) by exact Hsame. exact Hnone.
  - eexists _, _. split; [exact Hadv|]. split; [exact Hf|].
    split; [exact Ha|]. discriminate.
Qed.

(** *** [process_event] *)

Lemma tracker_log k a s : tracker k (log a s) = tracker k s.
Proof. destruct k; reflexivity. Qed.

Lemma process_machines_in_turn fuel now event machines s snaps :
  advanced_in_turn P fuel now event machines s snaps ->
  process_machines P fuel now event machines s =
    (Ok (filter (fun ms => triggered_now P ms.1 ms.2 = true)
                (zip machines snaps)).*1,
     default s (last snaps)).
Proof.
  induction 1 as [s|machine rest s s1 snaps Hadv _ IH]; [reflexivity|].
  cbn [process_machines]. unfold bind at 1. rewrite Hadv.
  unfold bind at 1, gets at 1. unfold bind at 1. rewrite IH.
  unfold ret. cbn [zip zip_with]. rewrite filter_cons. cbn [fst snd].
  fold (triggered_now P machine s1).
  assert (Hlast : default s (last (s1 :: snaps)) = default s1 (last snaps)).
  { destruct snaps as [|s2 snaps]; [reflexivity|].
    rewrite last_cons_cons.
    destruct (last (s2 :: snaps)) eqn:Hl; [reflexivity|].
    apply last_None in Hl. discriminate. }
  rewrite Hlast.
  destruct (triggered_now P machine s1) eqn:Hhit.
  - destruct (decide (true = true)); [reflexivity|congruence].
  - destruct (decide (false = true)); [discriminate|reflexivity].
Qed.

(** C1, as the code has it.  [process_event(now, event)] takes the entry
    of [event] out of its tracker, advances the subscribers in their
    order, and, all advancements succeeding, returns those subscribers
    that themselves have a [triggered] method which answers true right
    after the subscriber's own advancement; what event a subscriber is
    left subscribed to plays no part. *)
Theorem process_event_returns_triggered fuel now k event s machines tr
    snaps :
  EventTracker.dequeue event (tracker k s) = Some (machines, tr) ->
  advanced_in_turn P fuel now event machines
    (set_tracker k tr (log (AProcess k event) s)) snaps ->
  process_event P fuel now k event s =
    (Ok (filter (fun ms => triggered_now P ms.1 ms.2 = true)
                (zip machines snaps)).*1,
     default (set_tracker k tr (log (AProcess k event) s)) (last snaps)).
Proof.
  intros Hdq Hturn. unfold process_event, bind, modify, tracker_dequeue.
  rewrite tracker_log, Hdq.
  apply process_machines_in_turn. exact Hturn.
Qed.

(** *** What the operations add to the record *)















Lemma advanced_app (l1 l2 : list (action St)) :
  advanced (l1 ++ l2) = advanced l1 ++ advanced l2.
Proof. apply omap_app. Qed.

Lemma advanced_calls (l : list (action St)) :
  Forall (fun a => is_call a = true) l -> advanced l = [].
Proof.
  induction 1 as [|a l Ha _ IH]; [reflexivity|].
  destruct a; try discriminate. exact IH.
Qed.




(** *** The cascade *)






(** *** The commit points and the hooks *)










End SchedulerFacts.

(** ** The properties at work on the classes of the package *)

Module StockFacts.
Import Stock.


Lemma advance_self_loop_witness :
  let w' := (call (4%nat, m_press) 7 counter_heap).2 in
  runs classes 7 (4%nat, m_press) counter_heap 0 [] (4%nat, m_press) w'
       (Return None NAbsent) /\
  tracker_of classes 3%nat w' = Some AggregateT /\
  exists s',
    advance classes 1 7 4%nat (Some 3%nat) counter_press = (Ok tt, s') /\
    state s' !! 4%nat = Some (4%nat, m_press) /\
    (0%nat = 0%nat -> (4%nat, m_press) = (4%nat, m_press)) /\
    tracker AggregateT s' =
      EventTracker.add 4%nat 3%nat (tracker AggregateT counter_press) /\
    (AggregateT, 3%nat) ∈ subscriptions 4%nat s'.
Proof.
  intros w'.
  assert (Hruns : runs classes 7 (4%nat, m_press) (world counter_press) 0 []
                    (4%nat, m_press) w' (Return None NAbsent)).
  { apply runs_returns; [reflexivity|discriminate]. }
  split; [exact Hruns|]. split; [reflexivity|].
  apply (advance_self_loop classes 7 4%nat 3%nat (4%nat, m_press) 0 []
           (4%nat, m_press) w' counter_press 1 1 AggregateT Hruns).
  - reflexivity.
  - reflexivity.
  - lia.
  - reflexivity.
  - intros Hhas. vm_compute in Hhas. discriminate.
Defined.

Lemma advance_propagates_failure_witness :
  runs classes 7 (4%nat, m_press) miswired_heap 0 [] (4%nat, m_press)
       miswired_heap (Throw (NoConsume 0%nat)) /\
  exists s',
    advance classes 1 7 4%nat (Some 3%nat) miswired_press =
      (Raised (StateError (NoConsume 0%nat)), s') /\
    transitions s' !! 4%nat = Some (1 + Z.of_nat 0 + 1) /\
    state s' !! 4%nat = Some (4%nat, m_press) /\
    same_trackers miswired_press s'.
Proof.
  assert (Hruns : runs classes 7 (4%nat, m_press) (world miswired_press) 0 []
                    (4%nat, m_press) miswired_heap
                    (Throw (NoConsume 0%nat))).
  { apply runs_raises. reflexivity. }
  split; [exact Hruns|].
  apply (advance_propagates_failure classes 7 4%nat (Some 3%nat)
           (4%nat, m_press) 0 [] (4%nat, m_press) miswired_heap
           (NoConsume 0%nat) miswired_press 1 1 Hruns).
  - reflexivity.
  - reflexivity.
  - lia.
  - apply not_elem_of_nil.
Defined.

Lemma advance_checks_deadline_witness :
  (let w' := <[1%nat := OBlinker false 2%nat]> unstarted_heap in
   runs classes 7 (1%nat, m_off) unstarted_heap 0 [] (1%nat, m_off) w'
        (Return (Some (1%nat, m_on)) (NEvent 2%nat)) /\
   type_is_int (next_deadline 2%nat w') = false /\
   exists s',
     advance classes 1 7 1%nat None unstarted_off =
       (Raised (AssertionError VNone 2%nat 1%nat), s') /\
     same_trackers unstarted_off s' /\
     subscriptions 1%nat s' = subscriptions 1%nat unstarted_off) /\
  (let w' := <[1%nat := OBlinker false 0%nat]> blinker_heap in
   runs classes 0 (1%nat, m_start) blinker_heap 1 ([] ++ [])
        (1%nat, m_off) w' (Return (Some (1%nat, m_on)) (NEvent 0%nat)) /\
   type_is_int (next_deadline 0%nat w') = true /\
   exists s',
     advance classes 2 0 1%nat None blinker_start = (Ok tt, s') /\
     EventTracker.lookup 0%nat (time_events s') = Some ([] ++ [1%nat]) /\
     1%nat ∈ EventTracker.subscribers 0%nat (time_events s') /\
     (TimeT, 0%nat) ∈ subscriptions 1%nat s').
Proof.
  split.
  - intros w'.
    assert (Hruns : runs classes 7 (1%nat, m_off) (world unstarted_off) 0 []
                      (1%nat, m_off) w'
                      (Return (Some (1%nat, m_on)) (NEvent 2%nat))).
    { apply runs_returns; [reflexivity|discriminate]. }
    split; [exact Hruns|]. split; [reflexivity|].
    destruct (advance_checks_deadline classes 7 1%nat None (1%nat, m_off) 0
                [] (1%nat, m_off) w' (Some (1%nat, m_on)) (NEvent 2%nat)
                unstarted_off 1 1 2%nat Hruns eq_refl eq_refl
                (le_n 1) eq_refl eq_refl)
      as (r & s' & Hadv & Hbad & _).
    destruct (Hbad eq_refl) as (-> & Hsame & Hsubs).
    exists s'. split; [exact Hadv|]. split; [exact Hsame|exact Hsubs].
  - intros w'.
    assert (Hruns : runs classes 0 (1%nat, m_start) (world blinker_start) 1
                      ([] ++ []) (1%nat, m_off) w'
                      (Return (Some (1%nat, m_on)) (NEvent 0%nat))).
    { eapply runs_immediate; [reflexivity|].
      apply runs_returns; [reflexivity|discriminate]. }
    split; [exact Hruns|]. split; [reflexivity|].
    destruct (advance_checks_deadline classes 0 1%nat None (1%nat, m_start) 1
                ([] ++ []) (1%nat, m_off) w' (Some (1%nat, m_on))
                (NEvent 0%nat) blinker_start 0 2 0%nat Hruns eq_refl eq_refl
                (le_n 2) eq_refl eq_refl)
      as (r & s' & Hadv & _ & Hint).
    destruct (Hint eq_refl) as (-> & _ & Hlk & Hin & Hsub & _).
    exists s'. split; [exact Hadv|]. split; [exact Hlk|].
    split; [exact Hin|exact Hsub].
Defined.

Lemma advance_time_first_witness :
  let w' := <[1%nat := OBlinker false 2%nat]> timed_flag_heap in
  runs classes 7 (1%nat, m_off) timed_flag_heap 0 [] (1%nat, m_off) w'
       (Return (Some (1%nat, m_on)) (NEvent 2%nat)) /\
  has_next_deadline 2%nat w' = true /\
  has_triggered 2%nat w' = true /\
  exists r s',
    advance classes 1 7 1%nat None timed_flag_off = (r, s') /\
    flag_events s' = flag_events timed_flag_off /\
    aggregate_events s' = aggregate_events timed_flag_off /\
    (type_is_int (next_deadline 2%nat w') = true ->
     r = Ok tt /\
     time_events s' =
       EventTracker.add 1%nat 2%nat (time_events timed_flag_off) /\
     (subscriptions 1%nat timed_flag_off = [] ->
      subscriptions 1%nat s' = [(TimeT, 2%nat)])).
Proof.
  intros w'.
  assert (Hruns : runs classes 7 (1%nat, m_off) (world timed_flag_off) 0 []
                    (1%nat, m_off) w'
                    (Return (Some (1%nat, m_on)) (NEvent 2%nat))).
  { apply runs_returns; [reflexivity|discriminate]. }
  split; [exact Hruns|]. split; [reflexivity|]. split; [reflexivity|].
  apply (advance_time_first classes 7 1%nat None (1%nat, m_off) 0 []
           (1%nat, m_off) w' (Some (1%nat, m_on)) (NEvent 2%nat)
           timed_flag_off 1 1 2%nat Hruns).
  - reflexivity.
  - reflexivity.
  - lia.
  - reflexivity.
  - reflexivity.
  - reflexivity.
Defined.

(** The scheduler after [watcher_down]'s pulser entry is dequeued and
    the watcher advanced: the button was released, so one event is
    pending and the watcher is subscribed to the pulser again. *)
Lemma watcher_advanced :
  let r := advance classes 1 10000000 1%nat (Some 0%nat)
             (set_tracker TimeT []
                (log (AProcess TimeT 0%nat) watcher_down)) in
  r.1 = Ok tt /\
  triggered_now classes 1%nat r.2 = true /\
  subscriptions 1%nat r.2 = [(TimeT, 0%nat)] /\
  outstanding_triggered classes 1%nat r.2 = false.
Proof. vm_compute. repeat split. Qed.

Lemma process_event_returns_triggered_witness :
  exists snaps,
    EventTracker.dequeue 0%nat (tracker TimeT watcher_down)
      = Some ([1%nat], []) /\
    advanced_in_turn classes 1 10000000 0%nat [1%nat]
      (set_tracker TimeT [] (log (AProcess TimeT 0%nat) watcher_down)) snaps /\
    process_event classes 1 10000000 TimeT 0%nat watcher_down =
      (Ok (filter (fun ms => triggered_now classes ms.1 ms.2 = true)
                  (zip [1%nat] snaps)).*1,
       default (set_tracker TimeT [] (log (AProcess TimeT 0%nat) watcher_down))
               (last snaps)).
Proof.
  eexists. split; [reflexivity|].
  assert (Hturn : advanced_in_turn classes 1 10000000 0%nat [1%nat]
            (set_tracker TimeT [] (log (AProcess TimeT 0%nat) watcher_down))
            [(advance classes 1 10000000 1%nat (Some 0%nat)
                (set_tracker TimeT []
                   (log (AProcess TimeT 0%nat) watcher_down))).2]).
  { econstructor; [reflexivity|constructor]. }
  split; [exact Hturn|].
  apply (process_event_returns_triggered classes 1 10000000 TimeT 0%nat
           watcher_down [1%nat] [] _ eq_refl Hturn).
Defined.

(** C1 as stated fails: the pulser's one subscriber, the button watcher,
    is returned, because the watcher itself is a triggered flag; the
    event it is subscribed to afterwards is the pulser, a time event. *)
Lemma process_event_not_outstanding :
  let result := process_event classes 1 10000000 TimeT 0%nat watcher_down in
  EventTracker.lookup 0%nat (time_events watcher_down) = Some [1%nat] /\
  result.1 = Ok [1%nat] /\
  filter (fun m => outstanding_triggered classes m result.2 = true) [1%nat]
    = [] /\
  result.1 ≠
    Ok (filter (fun m => outstanding_triggered classes m result.2 = true)
               [1%nat]).
Proof.
  intros result. split; [reflexivity|]. split; [reflexivity|].
  split; [reflexivity|]. intros Heq. vm_compute in Heq. discriminate.
Qed.

(** The other direction: the [ButtonCounter] is left subscribed to its
    [FlagOr], which is still triggered, yet it is not returned, having no
    [triggered] method of its own. *)
Lemma process_event_skips_plain_machine :
  let result := process_event classes 1 7 AggregateT 3%nat counter_waiting in
  result.1 = Ok [] /\
  subscriptions 4%nat result.2 = [(AggregateT, 3%nat)] /\
  triggered 3%nat (world result.2) = true /\
  outstanding_triggered classes 4%nat result.2 = true.
Proof. vm_compute. repeat split. Qed.

(** An [UnevenBlinker] returns itself as its next event and lands in the
    Time Tracker, under its own key, and nowhere else. *)
Lemma uneven_blinker_time_only :
  let result := advance classes 1 1000 1%nat None uneven_off in
  result.1 = Ok tt /\
  has_triggered 1%nat (world result.2) = false /\
  next_deadline 1%nat (world result.2) = VInt 1700 /\
  subscriptions 1%nat result.2 = [(TimeT, 1%nat)].
Proof. vm_compute. repeat split. Qed.

(** A blinker on a one-second pulser: registered, started by [do_adds]
    (two transitions, [start] then [off]), then toggled by one firing. *)
Lemma blinker_runs :
  let s0 := register_machine [1%nat] (fresh blinker_heap) in
  let started := do_adds classes 3 0 s0 in
  let fired := run_fire classes 3 1000000000 0%nat [] started.2 in
  started.1 = Ok tt /\
  time_events started.2 = [(0%nat, [1%nat])] /\
  transitions started.2 !! 1%nat = Some 2 /\
  fired.1 = Ok tt /\
  time_events fired.2 = [(0%nat, [1%nat])] /\
  transitions fired.2 !! 1%nat = Some 3 /\
  state fired.2 !! 1%nat = Some (1%nat, m_off) /\
  next_deadline 0%nat (world fired.2) = VInt 2000000000 /\
  trace fired.2 =
    [ACommitAdds; AAdvance 1%nat None;
     ACall 1%nat (1%nat, m_start); ACall 1%nat (1%nat, m_off);
     AProcess TimeT 0%nat; AAdvance 1%nat (Some 0%nat);
     ACall 1%nat (1%nat, m_on); ACommitAdds; ACommitDeletes].
Proof. vm_compute. repeat split. Qed.


(** A machine registered twice is subscribed twice, and one
    deregistration takes only one of the two subscriptions away. *)
Lemma double_registration_survives_delete :
  let s0 := api (fresh blinker_heap) (Register [1%nat; 1%nat]) in
  let s1 := (do_adds classes 5 0 s0).2 in
  let s2 := (do_deletes classes 3 (api s1 (Deregister [1%nat]))).2 in
  time_events s1 = [(0%nat, [1%nat; 1%nat])] /\
  time_events s2 = [(0%nat, [1%nat])] /\
  pending_deletes s2 = [] /\
  subscriptions 1%nat s2 = [(TimeT, 0%nat)].
Proof. vm_compute. repeat split. Qed.

End StockFacts.

(** * Further properties of the trackers *)

Module EventTrackerMore.
Import EventTracker EventTrackerFacts.

Lemma filter_all {A} (Q : A -> Prop) `{!forall x, Decision (Q x)}
    (l : list A) :
  Forall Q l -> filter Q l = l.
Proof.
  induction 1 as [|x l Hx _ IH]; [reflexivity|].
  rewrite filter_cons_True by exact Hx. f_equal. exact IH.
Qed.

Lemma lookup_add_ne machine event e tr :
  e ≠ event -> lookup e (add machine event tr) = lookup e tr.
Proof.
  intros Hne. induction tr as [|[e' ms] rest IH]; simpl.
  - destruct (decide (event = e)); [congruence|reflexivity].
  - destruct (decide (e' = event)) as [->|Hne']; simpl.
    + destruct (decide (event = e)); [congruence|reflexivity].
    + destruct (decide (e' = e)); [reflexivity|exact IH].
Qed.

(** X1.  [add(machine, event)] puts [machine] at the end of the
    subscribers of [event], after those already there; the subscribers
    of every other event stay as they are; and the keys keep their
    order, a new event going last. *)
Theorem add_appends (machine event e : obj) (tr : t) :
  lookup e (add machine event tr) =
    (if decide (e = event) then Some (subscribers event tr ++ [machine])
     else lookup e tr) /\
  keys (add machine event tr) =
    (if decide (event ∈ keys tr) then keys tr else keys tr ++ [event]).
Proof.
  split; [|apply keys_add].
  destruct (decide (e = event)) as [->|Hne].
  - apply lookup_add.
  - apply lookup_add_ne. exact Hne.
Qed.

Lemma lookup_del_eq event tr :
  NoDup (keys tr) -> lookup event (del event tr) = None.
Proof.
  intros Hnd. apply lookup_None. intros Hin.
  induction tr as [|[e ms] rest IH]; [apply elem_of_nil in Hin; exact Hin|].
  apply NoDup_keys_cons in Hnd as [He Hnd]. simpl in Hin.
  destruct (decide (e = event)) as [->|Hne].
  - contradiction.
  - rewrite keys_cons in Hin. apply elem_of_cons in Hin as [Heq|Hin].
    + simpl in Heq. congruence.
    + apply IH; assumption.
Qed.

Lemma lookup_del_ne event e tr :
  e ≠ event -> lookup e (del event tr) = lookup e tr.
Proof.
  intros Hne. induction tr as [|[e' ms] rest IH]; [reflexivity|].
  simpl. destruct (decide (e' = event)) as [->|Hne'].
  - destruct (decide (event = e)); [congruence|reflexivity].
  - simpl. destruct (decide (e' = e)); [reflexivity|exact IH].
Qed.

Lemma keys_del_filter event tr :
  NoDup (keys tr) ->
  keys (del event tr) = filter (fun e => e ≠ event) (keys tr).
Proof.
  induction tr as [|[e ms] rest IH]; intros Hnd; [reflexivity|].
  apply NoDup_keys_cons in Hnd as [He Hnd]. cbn [del].
  rewrite (keys_cons (e, ms) rest), filter_cons. cbn [fst].
  destruct (decide (e = event)) as [->|Hne].
  - destruct (decide (event ≠ event)); [congruence|].
    symmetry. apply filter_all.
    apply Forall_forall. intros x Hx ->. contradiction.
  - destruct (decide (e ≠ event)); [|contradiction].
    rewrite keys_cons. cbn [fst]. f_equal. apply IH. exact Hnd.
Qed.

(** X2.  [dequeue(event)] on a tracker (a [dict]: each key once) fails
    with [KeyError] exactly when the event is not tracked; otherwise it
    returns the subscribers of the event, after which the event is not
    tracked any more, every other event has the subscribers it had, and
    the other keys keep their order. *)
Theorem dequeue_takes_entry (event : obj) (tr : t) :
  NoDup (keys tr) ->
  match dequeue event tr with
  | None => lookup event tr = None
  | Some (rslt, tr') =>
      lookup event tr = Some rslt /\
      lookup event tr' = None /\
      (forall e, e ≠ event -> lookup e tr' = lookup e tr) /\
      keys tr' = filter (fun e => e ≠ event) (keys tr)
  end.
Proof.
  intros Hnd. unfold dequeue.
  destruct (lookup event tr) as [rslt|]; [|reflexivity].
  split; [reflexivity|]. split; [apply lookup_del_eq; exact Hnd|].
  split; [intros e He; apply lookup_del_ne; exact He|].
  apply keys_del_filter. exact Hnd.
Qed.

Lemma dequeue_takes_entry_witness :
  let tr := add 7%nat 1%nat (add 8%nat 2%nat (add 9%nat 1%nat empty)) in
  NoDup (keys tr) /\
  dequeue 1%nat tr = Some ([9%nat; 7%nat], [(2%nat, [8%nat])]) /\
  dequeue 3%nat tr = None /\
  match dequeue 1%nat tr with
  | None => lookup 1%nat tr = None
  | Some (rslt, tr') =>
      lookup 1%nat tr = Some rslt /\
      lookup 1%nat tr' = None /\
      (forall e, e ≠ 1%nat -> lookup e tr' = lookup e tr) /\
      keys tr' = filter (fun e => e ≠ 1%nat) (keys tr)
  end.
Proof.
  assert (Hnd : NoDup (keys (add 7%nat 1%nat
                               (add 8%nat 2%nat (add 9%nat 1%nat empty))))).
  { apply (bool_decide_unpack (NoDup _)). reflexivity. }
  split; [exact Hnd|]. split; [reflexivity|]. split; [reflexivity|].
  apply (dequeue_takes_entry 1%nat _ Hnd).
Defined.

Lemma lookup_add_all machines event tr :
  lookup event (add_all machines event tr) =
    match machines with
    | [] => lookup event tr
    | _ => Some (subscribers event tr ++ machines)
    end.
Proof.
  revert tr. induction machines as [|m rest IH]; intros tr; [reflexivity|].
  change (add_all (m :: rest) event tr)
    with (add_all rest event (add m event tr)).
  rewrite IH. unfold subscribers. rewrite lookup_add. simpl.
  destruct rest; [reflexivity|]. rewrite <- app_assoc. reflexivity.
Qed.

Lemma lookup_add_all_ne machines event e tr :
  e ≠ event -> lookup e (add_all machines event tr) = lookup e tr.
Proof.
  intros Hne. revert tr.
  induction machines as [|m rest IH]; intros tr; [reflexivity|].
  change (add_all (m :: rest) event tr)
    with (add_all rest event (add m event tr)).
  rewrite IH. apply lookup_add_ne. exact Hne.
Qed.

Lemma keys_add_all machines event tr :
  machines ≠ [] -> event ∉ keys tr ->
  keys (add_all machines event tr) = keys tr ++ [event].
Proof.
  intros Hne Hnot. destruct machines as [|m rest]; [contradiction|].
  change (add_all (m :: rest) event tr)
    with (add_all rest event (add m event tr)).
  assert (Hk : keys (add m event tr) = keys tr ++ [event]).
  { rewrite keys_add. destruct (decide (event ∈ keys tr)); [contradiction|].
    reflexivity. }
  clear Hne. revert Hk. generalize (add m event tr).
  induction rest as [|m' rest IH]; intros tr1 Hk; [exact Hk|].
  change (add_all (m' :: rest) event tr1)
    with (add_all rest event (add m' event tr1)).
  apply IH. rewrite keys_add, Hk.
  destruct (decide (event ∈ keys tr ++ [event])) as [_|Hn]; [reflexivity|].
  exfalso. apply Hn. apply elem_of_app. right. left.
Qed.

(** X3.  When an event is dequeued and each of its subscribers then
    subscribes to it again, in the order of the dispatch, the event has
    the subscribers it had, in the order it had them; the other events
    are as they were; the event is now the last key. *)
Theorem dequeue_then_resubscribe (event : obj) (tr tr' : t)
    (rslt : list obj) :
  NoDup (keys tr) ->
  dequeue event tr = Some (rslt, tr') ->
  rslt ≠ [] ->
  lookup event (add_all rslt event tr') = Some rslt /\
  (forall e, e ≠ event -> lookup e (add_all rslt event tr') = lookup e tr) /\
  keys (add_all rslt event tr') =
    filter (fun e => e ≠ event) (keys tr) ++ [event].
Proof.
  intros Hnd Hdq Hne. unfold dequeue in Hdq.
  destruct (lookup event tr) as [ms|] eqn:Hl; [|discriminate].
  injection Hdq as <- <-.
  split; [|split].
  - rewrite lookup_add_all. unfold subscribers.
    rewrite lookup_del_eq by exact Hnd. destruct ms; [contradiction|].
    reflexivity.
  - intros e He. rewrite lookup_add_all_ne by exact He.
    apply lookup_del_ne. exact He.
  - rewrite keys_add_all; [|exact Hne|].
    + rewrite keys_del_filter by exact Hnd. reflexivity.
    + apply lookup_None. apply lookup_del_eq. exact Hnd.
Qed.

Lemma dequeue_then_resubscribe_witness :
  let tr := add 7%nat 1%nat (add 8%nat 2%nat (add 9%nat 1%nat empty)) in
  NoDup (keys tr) /\
  add_all [9%nat; 7%nat] 1%nat [(2%nat, [8%nat])] =
    [(2%nat, [8%nat]); (1%nat, [9%nat; 7%nat])] /\
  lookup 1%nat (add_all [9%nat; 7%nat] 1%nat [(2%nat, [8%nat])]) =
    Some [9%nat; 7%nat].
Proof.
  assert (Hnd : NoDup (keys (add 7%nat 1%nat
                               (add 8%nat 2%nat (add 9%nat 1%nat empty))))).
  { apply (bool_decide_unpack (NoDup _)). reflexivity. }
  split; [exact Hnd|]. split; [reflexivity|].
  assert (Hne : [9%nat; 7%nat] ≠ []) by discriminate.
  exact (proj1 (dequeue_then_resubscribe 1%nat _ [(2%nat, [8%nat])]
                  [9%nat; 7%nat] Hnd eq_refl Hne)).
Defined.

Lemma elem_of_remove_first_ne x machine l :
  x ≠ machine -> x ∈ remove_first machine l <-> x ∈ l.
Proof.
  intros Hne. induction l as [|y l IH]; [reflexivity|].
  simpl. destruct (decide (y = machine)) as [->|Hy].
  - rewrite elem_of_cons. split; [tauto|]. intros [?|?]; [congruence|tauto].
  - rewrite !elem_of_cons, IH. reflexivity.
Qed.

Lemma events_of_strip x machine tr :
  x ≠ machine ->
  events_of x (filter (fun p => p.2 ≠ []) (strip machine <$> tr)) =
    events_of x tr.
Proof.
  intros Hne. induction tr as [|[e ms] rest IH]; [reflexivity|].
  rewrite fmap_cons, filter_cons.
  change (strip machine (e, ms)) with (e, remove_first machine ms).
  cbn [snd]. rewrite (events_of_cons x e ms rest).
  destruct (decide (remove_first machine ms ≠ [])) as [Hn|Hn].
  - rewrite events_of_cons, IH.
    destruct (decide (x ∈ remove_first machine ms)) as [Hin|Hin];
      destruct (decide (x ∈ ms)) as [Hin'|Hin']; try reflexivity;
      exfalso; apply (elem_of_remove_first_ne x machine ms Hne) in Hin
      || apply (elem_of_remove_first_ne x machine ms Hne) in Hin';
      contradiction.
  - rewrite IH. destruct (decide (x ∈ ms)) as [Hin|]; [|reflexivity].
    exfalso. apply (elem_of_remove_first_ne x machine ms Hne) in Hin.
    apply dec_stable in Hn. rewrite Hn in Hin.
    apply elem_of_nil in Hin. exact Hin.
Qed.

(** X4.  [delete(machine)] never touches another machine: every other
    machine is subscribed to the same events, in the same key order, as
    before. *)
Theorem delete_spares_others (machine x : obj) (tr : t) :
  NoDup (keys tr) ->
  x ≠ machine ->
  events_of x (delete machine tr) = events_of x tr.
Proof.
  intros Hnd Hne. rewrite delete_spec by exact Hnd.
  apply events_of_strip. exact Hne.
Qed.

Lemma delete_spares_others_witness :
  let tr := add 7%nat 1%nat (add 8%nat 2%nat (add 9%nat 1%nat empty)) in
  NoDup (keys tr) /\
  events_of 7%nat tr = [1%nat] /\
  events_of 7%nat (delete 9%nat tr) = events_of 7%nat tr.
Proof.
  assert (Hnd : NoDup (keys (add 7%nat 1%nat
                               (add 8%nat 2%nat (add 9%nat 1%nat empty))))).
  { apply (bool_decide_unpack (NoDup _)). reflexivity. }
  split; [exact Hnd|]. split; [reflexivity|].
  apply (delete_spares_others 9%nat 7%nat _ Hnd). discriminate.
Defined.

Lemma occurrences_remove_first machine l :
  occurrences machine (remove_first machine l) = pred (occurrences machine l).
Proof.
  unfold occurrences. induction l as [|y l IH]; [reflexivity|].
  simpl. rewrite filter_cons. destruct (decide (y = machine)) as [->|Hy].
  - reflexivity.
  - rewrite filter_cons. destruct (decide (y = machine)); [contradiction|].
    exact IH.
Qed.

Lemma others_remove_first machine l :
  filter (fun m => m ≠ machine) (remove_first machine l) =
    filter (fun m => m ≠ machine) l.
Proof.
  induction l as [|y l IH]; [reflexivity|].
  simpl. rewrite filter_cons. destruct (decide (y = machine)) as [->|Hy].
  - destruct (decide (machine ≠ machine)); [congruence|reflexivity].
  - rewrite filter_cons. destruct (decide (y ≠ machine)); [|contradiction].
    f_equal. exact IH.
Qed.

(** X5.  [delete(machine)] takes exactly one occurrence of [machine] out
    of each subscriber list, the way [list.remove] does: a machine that
    is twice in the list of an event is still once in it afterwards.  The
    other subscribers keep their places. *)
Theorem delete_removes_one_occurrence (machine event : obj) (tr : t) :
  NoDup (keys tr) ->
  occurrences machine (subscribers event (delete machine tr)) =
    pred (occurrences machine (subscribers event tr)) /\
  filter (fun m => m ≠ machine) (subscribers event (delete machine tr)) =
    filter (fun m => m ≠ machine) (subscribers event tr).
Proof.
  intros Hnd. unfold subscribers. rewrite lookup_delete by exact Hnd.
  destruct (lookup event tr) as [ms|]; [|split; reflexivity].
  destruct (decide (remove_first machine ms = [])) as [Hnil|Hnil]; simpl.
  - rewrite <- (occurrences_remove_first machine ms),
      <- (others_remove_first machine ms), Hnil.
    split; reflexivity.
  - split; [apply occurrences_remove_first|apply others_remove_first].
Qed.

Lemma delete_removes_one_occurrence_witness :
  let tr := add 7%nat 1%nat (add 8%nat 1%nat (add 7%nat 1%nat empty)) in
  NoDup (keys tr) /\
  tr = [(1%nat, [7%nat; 8%nat; 7%nat])] /\
  delete 7%nat tr = [(1%nat, [8%nat; 7%nat])] /\
  occurrences 7%nat (subscribers 1%nat (delete 7%nat tr)) =
    pred (occurrences 7%nat (subscribers 1%nat tr)).
Proof.
  assert (Hnd : NoDup (keys (add 7%nat 1%nat
                               (add 8%nat 1%nat (add 7%nat 1%nat empty))))).
  { apply (bool_decide_unpack (NoDup _)). reflexivity. }
  split; [exact Hnd|]. split; [reflexivity|]. split; [reflexivity|].
  apply (delete_removes_one_occurrence 7%nat 1%nat _ Hnd).
Defined.

Lemma delete_keys machine tr :
  NoDup (keys tr) -> NoDup (keys (delete machine tr)).
Proof.
  intros Hnd. rewrite delete_spec by exact Hnd.
  apply (sublist_NoDup _ (keys (strip machine <$> tr))).
  - rewrite keys_strip. exact Hnd.
  - unfold keys. apply fmap_sublist, sublist_filter.
Qed.

Lemma delete_no_empty machine tr :
  NoDup (keys tr) -> no_empty (delete machine tr).
Proof.
  intros Hnd. rewrite delete_spec by exact Hnd.
  apply Forall_forall. intros p Hp. apply list_elem_of_filter in Hp. tauto.
Qed.

Lemma delete_gone machine tr event machines :
  NoDup (keys tr) -> subscribers_distinct tr ->
  lookup event (delete machine tr) = Some machines -> machine ∉ machines.
Proof.
  intros Hnd Hdist Hl. rewrite lookup_delete in Hl by exact Hnd.
  destruct (lookup event tr) as [ms|] eqn:Hms; [|discriminate].
  destruct (decide (remove_first machine ms = [])); [discriminate|].
  injection Hl as <-. rewrite remove_first_filter.
  - intros Hin. apply list_elem_of_filter in Hin as [Hneq _]. congruence.
  - apply lookup_elem in Hms. unfold subscribers_distinct in Hdist.
    rewrite Forall_forall in Hdist. apply (Hdist _ Hms).
Qed.

(** X6.  Deleting a machine twice is deleting it once: on a tracker
    whose subscriber lists hold no machine twice, a second
    [delete(machine)] changes nothing. *)
Theorem delete_idempotent (machine : obj) (tr : t) :
  NoDup (keys tr) ->
  subscribers_distinct tr ->
  delete machine (delete machine tr) = delete machine tr.
Proof.
  intros Hnd Hdist. apply delete_absent.
  - apply delete_keys. exact Hnd.
  - apply delete_no_empty. exact Hnd.
  - intros event machines. apply delete_gone; assumption.
Qed.

Lemma delete_idempotent_witness :
  let tr := add 7%nat 1%nat (add 8%nat 2%nat (add 9%nat 1%nat empty)) in
  NoDup (keys tr) /\ subscribers_distinct tr /\
  delete 8%nat tr = [(1%nat, [9%nat; 7%nat])] /\
  delete 8%nat (delete 8%nat tr) = delete 8%nat tr.
Proof.
  assert (Hnd : NoDup (keys (add 7%nat 1%nat
                               (add 8%nat 2%nat (add 9%nat 1%nat empty))))).
  { apply (bool_decide_unpack (NoDup _)). reflexivity. }
  assert (Hd : subscribers_distinct
                 (add 7%nat 1%nat (add 8%nat 2%nat (add 9%nat 1%nat empty)))).
  { unfold subscribers_distinct.
    apply (bool_decide_unpack (Forall (fun p => NoDup p.2) _)). reflexivity. }
  split; [exact Hnd|]. split; [exact Hd|]. split; [reflexivity|].
  apply (delete_idempotent 8%nat _ Hnd Hd).
Defined.

Lemma min_by_first key best rest :
  exists earlier later,
    best :: rest = earlier ++ min_by key best rest :: later /\
    Forall (fun e => key (min_by key best rest) < key e) earlier /\
    Forall (fun e => key (min_by key best rest) <= key e) later.
Proof.
  revert best. induction rest as [|x rest IH]; intros best.
  - exists [], []. repeat split; constructor.
  - cbn [min_by]. case_bool_decide as Hlt.
    + destruct (IH x) as (earlier & later & Heq & He & Hl).
      exists (best :: earlier), later. rewrite Heq at 1.
      split; [reflexivity|]. split; [|exact Hl].
      constructor; [|exact He].
      assert (key (min_by key x rest) <= key x); [|lia].
      assert (Hx : x ∈ earlier ++ min_by key x rest :: later)
        by (rewrite <- Heq; left).
      apply elem_of_app in Hx as [Hx|Hx].
      * rewrite Forall_forall in He. specialize (He _ Hx). lia.
      * apply elem_of_cons in Hx as [Hx|Hx]; [rewrite <- Hx; lia|].
        rewrite Forall_forall in Hl. apply (Hl _ Hx).
    + destruct (IH best) as (earlier & later & Heq & He & Hl).
      destruct earlier as [|b earlier].
      * injection Heq as Hb <-. exists [], (x :: rest).
        split; [rewrite <- Hb; reflexivity|]. split; [constructor|].
        constructor; [rewrite <- Hb; lia|exact Hl].
      * injection Heq as <- Hrest. exists (best :: x :: earlier), later.
        split; [simpl; f_equal; f_equal; exact Hrest|]. split; [|exact Hl].
        apply Forall_cons in He as [Hb He].
        constructor; [exact Hb|]. constructor; [lia|exact He].
Qed.

(** X7.  [soonest()] fails on an empty tracker and on no other.
    Otherwise it returns a tracked event whose deadline no tracked event
    undercuts, and of several events with that deadline the one that
    was tracked first. *)
Theorem soonest_is_first_minimum (next_deadline : obj -> Z) (tr : t) :
  match soonest next_deadline tr with
  | None => tr = []
  | Some event =>
      exists earlier later,
        keys tr = earlier ++ event :: later /\
        Forall (fun e => next_deadline event < next_deadline e) earlier /\
        Forall (fun e => next_deadline event <= next_deadline e) later
  end.
Proof.
  unfold soonest. destruct tr as [|[e ms] rest]; [reflexivity|].
  rewrite keys_cons. cbn [fst]. apply min_by_first.
Qed.

(** X8.  In a tracker the scheduler has built, an event is a key
    ([event in flag_events]) exactly when some machine is subscribed to
    it. *)
Theorem contains_iff_subscribed (event : obj) (tr : t) :
  reachable tr ->
  contains event tr = true <->
  exists machine, event ∈ events_of machine tr.
Proof.
  intros Hr. pose proof (reachable_no_empty tr Hr) as Hne.
  unfold contains. rewrite bool_decide_eq_true. split.
  - intros [ms Hms]. pose proof (lookup_elem _ _ _ Hms) as Hin.
    unfold no_empty in Hne. rewrite Forall_forall in Hne.
    specialize (Hne _ Hin). simpl in Hne.
    destruct ms as [|m ms]; [contradiction|].
    exists m. eapply elem_events_of; [exact Hms|left].
  - intros [machine Hin]. unfold events_of in Hin.
    apply list_elem_of_fmap in Hin as ([e ms] & -> & Hp).
    apply list_elem_of_filter in Hp as [_ Hp]. simpl.
    destruct (lookup e tr) as [ms'|] eqn:Hl; [eexists; reflexivity|].
    apply lookup_None in Hl. exfalso. apply Hl.
    apply list_elem_of_fmap. exists (e, ms). split; [reflexivity|exact Hp].
Qed.

Lemma contains_iff_subscribed_witness :
  let tr := add 7%nat 1%nat (add 8%nat 2%nat (add 9%nat 1%nat empty)) in
  reachable tr /\
  contains 2%nat tr = true /\
  contains 3%nat tr = false /\
  (contains 2%nat tr = true <-> exists machine, 2%nat ∈ events_of machine tr).
Proof.
  assert (Hr : reachable
                 (add 7%nat 1%nat (add 8%nat 2%nat (add 9%nat 1%nat empty))))
    by (repeat constructor).
  split; [exact Hr|]. split; [reflexivity|]. split; [reflexivity|].
  apply (contains_iff_subscribed 2%nat _ Hr).
Defined.

(** *** What [delete] leaves of the subscriptions *)






End EventTrackerMore.

(** * Further properties of the scheduler *)

Section SchedulerMore.

Context {W St E : Type}.
Variable P : program W St E.
Implicit Types (s : sched W St) (machine x : obj) (calls : list api_call).

(** *** Relations every operation respects *)

Lemma steps_ret {A} R (a : A) :
  Reflexive R -> steps R (ret a : M W St E A).
Proof. intros HR s. apply HR. Qed.

Lemma steps_raise {A} R e : Reflexive R -> steps R (raise e : M W St E A).
Proof. intros HR s. apply HR. Qed.

Lemma steps_out_of_fuel {A} R :
  Reflexive R -> steps R (out_of_fuel : M W St E A).
Proof. intros HR s. apply HR. Qed.

Lemma steps_gets {A} R (f : sched W St -> A) :
  Reflexive R -> steps R (gets f : M W St E A).
Proof. intros HR s. apply HR. Qed.

Lemma steps_getattr {A} R (f : sched W St -> gmap obj A) o :
  Reflexive R -> steps R (getattr f o : M W St E A).
Proof. intros HR s. unfold getattr. destruct (f s !! o); apply HR. Qed.

Lemma steps_modify R (f : sched W St -> sched W St) :
  (forall s, R s (f s)) -> steps R (modify f : M W St E unit).
Proof. intros Hf s. apply Hf. Qed.

Lemma steps_bind {A B} R (c : M W St E A) (k : A -> M W St E B) :
  Transitive R -> steps R c -> (forall a, steps R (k a)) ->
  steps R (bind c k).
Proof.
  intros HR Hc Hk s. unfold bind. specialize (Hc s).
  destruct (c s) as [[a|e|] s1]; cbn [snd] in *; [|exact Hc|exact Hc].
  eapply HR; [exact Hc|apply Hk].
Qed.

Lemma steps_api_calls R calls s :
  call_frame R -> R s (foldl api s calls).
Proof.
  intros HR. destruct (cf_preorder R HR) as [Hrefl Htrans].
  revert s. induction calls as [|c rest IH]; intros s; [apply Hrefl|].
  cbn [foldl]. eapply Htrans; [apply (cf_api R HR)|apply IH].
Qed.

Lemma steps_invoke R st now : call_frame R -> steps R (invoke P st now).
Proof.
  intros HR s. destruct (cf_preorder R HR) as [Hrefl Htrans].
  unfold invoke. destruct (call P st now (world s)) as [[r calls] w].
  assert (Hs : R s (foldl api (set_world w s) calls)).
  { eapply Htrans; [apply (cf_world R HR)|apply steps_api_calls, HR]. }
  destruct r; exact Hs.
Qed.

Lemma steps_call_state R now machine event :
  call_frame R -> steps R (call_state P now machine event).
Proof.
  intros HR. destruct (cf_preorder R HR) as [Hrefl Htrans].
  unfold call_state.
  apply steps_bind; [exact Htrans|apply steps_getattr, Hrefl|intros n].
  apply steps_bind;
    [exact Htrans|apply steps_modify; intros s; apply (cf_transitions R HR)|].
  intros _.
  apply steps_bind; [exact Htrans|apply steps_getattr, Hrefl|intros st].
  apply steps_bind;
    [exact Htrans|apply steps_modify; intros s; apply (cf_log R HR)|].
  intros _.
  apply steps_bind; [exact Htrans|apply steps_invoke, HR|intros r].
  apply steps_bind;
    [exact Htrans|apply steps_modify; intros s; apply (cf_state R HR)|].
  intros _. apply steps_ret, Hrefl.
Qed.

Lemma steps_advance_loop R fuel now machine event :
  call_frame R -> steps R (advance_loop P fuel now machine event).
Proof.
  intros HR. destruct (cf_preorder R HR) as [Hrefl Htrans].
  induction fuel as [|fuel IH]; cbn [advance_loop].
  - apply steps_out_of_fuel, Hrefl.
  - apply steps_bind; [exact Htrans|apply steps_call_state, HR|intros next].
    destruct (decide (next = IMMEDATE_TRANSFER));
      [exact IH|apply steps_ret, Hrefl].
Qed.

Lemma steps_advance R fuel now machine event :
  call_frame R -> (forall s k tr, R s (set_tracker k tr s)) ->
  steps R (advance P fuel now machine event).
Proof.
  intros HR Htr. destruct (cf_preorder R HR) as [Hrefl Htrans].
  unfold advance.
  apply steps_bind;
    [exact Htrans|apply steps_modify; intros s; apply (cf_log R HR)|].
  intros _.
  apply steps_bind; [exact Htrans|apply steps_advance_loop, HR|intros next].
  destruct (match next with
            | NEvent e => Some e
            | NAbsent => event
            | IMMEDATE_TRANSFER => None
            end) as [e|]; [|apply steps_ret, Hrefl].
  apply steps_bind; [exact Htrans|apply steps_gets, Hrefl|intros w].
  assert (Hadd : forall k, steps R (tracker_add k machine e : M W St E unit)).
  { intros k. apply steps_modify. intros s. apply Htr. }
  destruct (has_next_deadline P e w).
  - destruct (negb (type_is_int (next_deadline P e w)));
      [apply steps_raise, Hrefl|apply Hadd].
  - destruct (has_triggered P e w); [|apply steps_ret, Hrefl].
    destruct (has_waiting_on P e w); apply Hadd.
Qed.

Lemma steps_process_machines R fuel now event machines :
  call_frame R -> (forall s k tr, R s (set_tracker k tr s)) ->
  steps R (process_machines P fuel now event machines).
Proof.
  intros HR Htr. destruct (cf_preorder R HR) as [Hrefl Htrans].
  induction machines as [|machine rest IH]; cbn [process_machines].
  - apply steps_ret, Hrefl.
  - apply steps_bind; [exact Htrans|apply steps_advance; assumption|].
    intros _.
    apply steps_bind; [exact Htrans|apply steps_gets, Hrefl|intros w].
    apply steps_bind; [exact Htrans|exact IH|intros l].
    apply steps_ret, Hrefl.
Qed.

Lemma steps_process_event R fuel now k event :
  call_frame R -> (forall s k tr, R s (set_tracker k tr s)) ->
  steps R (process_event P fuel now k event).
Proof.
  intros HR Htr. destruct (cf_preorder R HR) as [Hrefl Htrans].
  unfold process_event.
  apply steps_bind;
    [exact Htrans|apply steps_modify; intros s; apply (cf_log R HR)|].
  intros _. apply steps_bind; [exact Htrans| |intros machines].
  - intros s. unfold tracker_dequeue.
    destruct (EventTracker.dequeue event (tracker k s)) as [[rslt tr]|];
      [apply Htr|apply Hrefl].
  - apply steps_process_machines; assumption.
Qed.

Lemma steps_search_process R fuel now trigger events acc :
  call_frame R -> (forall s k tr, R s (set_tracker k tr s)) ->
  steps R (search_process P fuel now trigger events acc).
Proof.
  intros HR Htr. destruct (cf_preorder R HR) as [Hrefl Htrans].
  revert acc. induction events as [|event rest IH]; intros acc;
    cbn [search_process].
  - apply steps_ret, Hrefl.
  - apply steps_bind; [exact Htrans|apply steps_gets, Hrefl|intros w].
    destruct (waiting_on P event trigger w && triggered P event w);
      [|apply IH].
    apply steps_bind;
      [exact Htrans|apply steps_process_event; assumption|intros more].
    apply IH.
Qed.

Lemma steps_cascade R fuel now triggered_machines :
  call_frame R -> (forall s k tr, R s (set_tracker k tr s)) ->
  steps R (cascade P fuel now triggered_machines).
Proof.
  intros HR Htr. destruct (cf_preorder R HR) as [Hrefl Htrans].
  revert triggered_machines.
  induction fuel as [|fuel IH]; intros triggered_machines;
    cbn [cascade]; destruct (pop triggered_machines) as [[event rest]|];
    try (apply steps_ret, Hrefl); try (apply steps_out_of_fuel, Hrefl).
  apply steps_bind; [exact Htrans|apply steps_gets, Hrefl|intros flags].
  destruct (EventTracker.contains event flags).
  - apply steps_bind;
      [exact Htrans|apply steps_process_event; assumption|intros more].
    apply IH.
  - apply steps_bind; [exact Htrans|apply steps_gets, Hrefl|intros ags].
    apply steps_bind;
      [exact Htrans|apply steps_search_process; assumption|intros l].
    apply IH.
Qed.

Lemma steps_hook R (code : W -> option E * list api_call * W) :
  call_frame R -> steps R (hook code : M W St E unit).
Proof.
  intros HR s. destruct (cf_preorder R HR) as [Hrefl Htrans].
  unfold hook. destruct (code (world s)) as [[r calls] w].
  assert (Hs : R s (foldl api (set_world w s) calls)).
  { eapply Htrans; [apply (cf_world R HR)|apply steps_api_calls, HR]. }
  destruct r; exact Hs.
Qed.

Lemma steps_delete_everywhere R machine s :
  PreOrder R -> (forall s k tr, R s (set_tracker k tr s)) ->
  R s (delete_everywhere machine s).
Proof.
  intros [Hrefl Htrans] Htr. unfold delete_everywhere. cbv zeta.
  eapply Htrans; [|apply Htr]. eapply Htrans; [|apply Htr]. apply Htr.
Qed.

Lemma steps_do_deletes_from R fuel i :
  call_frame R -> (forall s k tr, R s (set_tracker k tr s)) ->
  steps R (do_deletes_from P fuel i).
Proof.
  intros HR Htr. destruct (cf_preorder R HR) as [Hrefl Htrans].
  revert i. induction fuel as [|fuel IH]; intros i; cbn [do_deletes_from].
  - apply steps_out_of_fuel, Hrefl.
  - apply steps_bind; [exact Htrans|apply steps_gets, Hrefl|intros queue].
    destruct (queue !! i) as [machine|]; [|apply steps_ret, Hrefl].
    apply steps_bind; [exact Htrans| |intros _].
    { apply steps_modify. intros s.
      apply steps_delete_everywhere; [apply (cf_preorder R HR)|exact Htr]. }
    apply steps_bind; [exact Htrans|apply steps_gets, Hrefl|intros w].
    apply steps_bind; [exact Htrans| |intros _; apply IH].
    destruct (has_finish P machine w);
      [apply steps_hook, HR|apply steps_ret, Hrefl].
Qed.

Lemma steps_run_actors R actors :
  call_frame R -> steps R (run_actors P actors).
Proof.
  intros HR. destruct (cf_preorder R HR) as [Hrefl Htrans].
  induction actors as [|a rest IH]; cbn [run_actors].
  - apply steps_ret, Hrefl.
  - apply steps_bind;
      [exact Htrans|apply steps_modify; intros s; apply (cf_log R HR)|].
    intros _.
    apply steps_bind; [exact Htrans|apply steps_hook, HR|intros _; exact IH].
Qed.

(** *** The queues and the logical clock *)

Lemma reset_counters_frame (machines : list obj) s :
  let s' := foldl (fun s machine =>
                     set_transitions (<[machine := 0]> (transitions s)) s)
                  s machines in
  pending_adds s' = pending_adds s /\
  pending_deletes s' = pending_deletes s /\
  state_clock s' = state_clock s.
Proof.
  simpl. revert s. induction machines as [|m rest IH]; intros s.
  - repeat split.
  - cbn [foldl]. destruct (IH (set_transitions (<[m:=0]> (transitions s)) s))
      as (Ha & Hd & Hc). simpl in Ha, Hd, Hc. repeat split; assumption.
Qed.

Lemma register_queues (machines : list obj) s :
  pending_adds (register_machine machines s) = pending_adds s ++ machines /\
  pending_deletes (register_machine machines s) = pending_deletes s /\
  state_clock (register_machine machines s) = state_clock s.
Proof.
  unfold register_machine.
  destruct (reset_counters_frame machines s) as (Ha & Hd & Hc).
  simpl in *. rewrite Ha. repeat split; assumption.
Qed.

Lemma queues_grow_preorder : PreOrder (@queues_grow W St).
Proof.
  split.
  - intros s. repeat split; reflexivity.
  - intros s1 s2 s3 (Ha & Hd & Hc) (Ha' & Hd' & Hc').
    split; [etrans; eassumption|]. split; [etrans; eassumption|congruence].
Qed.

Lemma queues_grow_frame : call_frame (@queues_grow W St).
Proof.
  split; [apply queues_grow_preorder|..];
    try (intros; repeat split; reflexivity).
  intros s [machines|machines]; cbn [api].
  - destruct (register_queues machines s) as (Ha & Hd & Hc).
    split; [rewrite Ha; apply prefix_app_r; reflexivity|].
    split; [rewrite Hd; reflexivity|exact Hc].
  - unfold deregister_machine. simpl.
    split; [reflexivity|]. split; [apply prefix_app_r; reflexivity|].
    reflexivity.
Qed.

Lemma clock_stands_frame : call_frame (@clock_stands W St).
Proof.
  split; [split|..]; unfold clock_stands.
  - intros s. reflexivity.
  - intros s1 s2 s3 H1 H2. congruence.
  - intros; reflexivity.
  - intros; reflexivity.
  - intros; reflexivity.
  - intros; reflexivity.
  - intros s c. destruct (cf_api _ queues_grow_frame s c) as (_ & _ & Hc).
    exact Hc.
Qed.

Lemma steps_do_adds_from_clock fuel now i :
  steps clock_stands (do_adds_from P fuel now i).
Proof.
  destruct (cf_preorder _ clock_stands_frame) as [Hrefl Htrans].
  revert i. induction fuel as [|fuel IH]; intros i; cbn [do_adds_from].
  - apply steps_out_of_fuel, Hrefl.
  - apply steps_bind; [exact Htrans|apply steps_gets, Hrefl|intros queue].
    destruct (queue !! i) as [machine|]; [|apply steps_ret, Hrefl].
    apply steps_bind;
      [exact Htrans|apply steps_modify; intros s; reflexivity|intros _].
    apply steps_bind; [exact Htrans| |intros _; apply IH].
    apply steps_advance; [apply clock_stands_frame|].
    intros s k tr. reflexivity.
Qed.

(** X9.  [state_clock] counts the firings that happened: one firing
    adds exactly one to it when [happend] answers true and nothing when
    it answers false, whatever the machines do and however the firing
    ends. *)
Theorem state_clock_counts_firings fuel now fired_event aggregate_actors s :
  state_clock (run_fire P fuel now fired_event aggregate_actors s).2 =
    state_clock s +
    (if (happend P fired_event now (world s)).1 then 1 else 0).
Proof.
  destruct (cf_preorder _ clock_stands_frame) as [Hrefl Htrans].
  unfold run_fire. unfold bind at 1.
  destruct (happend P fired_event now (world s)) as [happened w].
  destruct happened; cbn [fst]; [|simpl; lia].
  unfold bind at 1, modify at 1.
  match goal with |- state_clock (?c ?s0).2 = _ =>
    assert (Hc : steps clock_stands c) end.
  { apply steps_bind; [exact Htrans| |intros l].
    { apply steps_process_event; [apply clock_stands_frame|].
      intros; reflexivity. }
    apply steps_bind; [exact Htrans| |intros _].
    { apply steps_cascade; [apply clock_stands_frame|].
      intros; reflexivity. }
    apply steps_bind; [exact Htrans| |intros _].
    { unfold do_adds.
      apply steps_bind;
        [exact Htrans|apply steps_modify; intros; reflexivity|intros _].
      apply steps_bind; [exact Htrans|apply steps_gets, Hrefl|intros q].
      destruct q; [apply steps_ret, Hrefl|].
      apply steps_bind;
        [exact Htrans|apply steps_do_adds_from_clock|intros _].
      apply steps_modify. intros; reflexivity. }
    apply steps_bind; [exact Htrans| |intros _].
    { unfold do_deletes.
      apply steps_bind;
        [exact Htrans|apply steps_modify; intros; reflexivity|intros _].
      apply steps_bind; [exact Htrans|apply steps_gets, Hrefl|intros q].
      destruct q; [apply steps_ret, Hrefl|].
      apply steps_bind; [exact Htrans| |intros _].
      - apply steps_do_deletes_from; [apply clock_stands_frame|].
        intros; reflexivity.
      - apply steps_modify. intros; reflexivity. }
    apply steps_run_actors, clock_stands_frame. }
  rewrite Hc. reflexivity.
Qed.

(** *** What [advance] does to the trackers *)

Lemma same_trackers_frame : call_frame (@same_trackers W St).
Proof.
  split; [split|..].
  - intros s. apply same_trackers_refl.
  - intros s1 s2 s3. apply same_trackers_trans.
  - intros; repeat split.
  - intros; repeat split.
  - intros; repeat split.
  - intros; repeat split.
  - intros s c. apply api_frame.
Qed.

Lemma tracker_same s s' k : same_trackers s s' -> tracker k s' = tracker k s.
Proof. intros (Ht & Hf & Ha). destruct k; assumption. Qed.

Lemma tracker_set_eq k tr s : tracker k (set_tracker k tr s) = tr.
Proof. destruct k; reflexivity. Qed.

Lemma tracker_set_ne k k' tr s :
  k' ≠ k -> tracker k' (set_tracker k tr s) = tracker k' s.
Proof. destruct k, k'; intros Hne; try reflexivity; congruence. Qed.

(** X10.  [advance] never takes a subscription away and adds at most
    one: however it ends, either the three trackers are as they were, or
    the machine has been added once to one event of one tracker and
    nothing else has changed; and when [advance] does not return
    normally, the trackers are as they were. *)
Theorem advance_only_adds fuel now machine event s :
  ((advance P fuel now machine event s).1 ≠ Ok tt ->
   same_trackers s (advance P fuel now machine event s).2) /\
  (same_trackers s (advance P fuel now machine event s).2 \/
   exists k e,
     tracker k (advance P fuel now machine event s).2 =
       EventTracker.add machine e (tracker k s) /\
     forall k', k' ≠ k ->
       tracker k' (advance P fuel now machine event s).2 = tracker k' s).
Proof.
  destruct (advance P fuel now machine event s) as [r s'] eqn:Hrun.
  cbn [fst snd]. unfold advance in Hrun.
  unfold bind at 1, modify at 1 in Hrun.
  pose proof (steps_advance_loop same_trackers fuel now machine event
                same_trackers_frame (log (AAdvance machine event) s)) as Hs.
  unfold bind in Hrun.
  destruct (advance_loop P fuel now machine event
              (log (AAdvance machine event) s)) as [[next|e|] s1];
    cbn [snd] in Hs.
  2,3: injection Hrun as <- <-; split; [intros _; exact Hs|left; exact Hs].
  assert (Hs' : same_trackers s s1) by exact Hs. clear Hs.
  rename Hs' into Hs.
  assert (Hsame : (r, s') = (Ok tt, s1) \/ (exists err, (r, s') = (Raised err, s1))
                  -> (r ≠ Ok tt -> same_trackers s s') /\
                     (same_trackers s s' \/
                      exists k e,
                        tracker k s' = EventTracker.add machine e (tracker k s)
                        /\ forall k', k' ≠ k -> tracker k' s' = tracker k' s)).
  { intros [[= -> ->]|[err [= -> ->]]];
      (split; [intros _; exact Hs|left; exact Hs]). }
  assert (Hadd : forall k e,
    (r, s') = (Ok tt, set_tracker k
                        (EventTracker.add machine e (tracker k s1)) s1) ->
    (r ≠ Ok tt -> same_trackers s s') /\
    (same_trackers s s' \/
     exists k e,
       tracker k s' = EventTracker.add machine e (tracker k s) /\
       forall k', k' ≠ k -> tracker k' s' = tracker k' s)).
  { intros k e [= -> ->]. split; [intros Hn; exfalso; apply Hn; reflexivity|].
    right. exists k, e. split.
    - rewrite tracker_set_eq. f_equal. apply (tracker_same _ _ k Hs).
    - intros k' Hne. rewrite tracker_set_ne by exact Hne.
      apply (tracker_same _ _ k' Hs). }
  destruct (match next with
            | NEvent e => Some e
            | NAbsent => event
            | IMMEDATE_TRANSFER => None
            end) as [e|].
  2: apply Hsame; left; symmetry; exact Hrun.
  unfold gets, tracker_add, modify, raise, ret in Hrun.
  destruct (has_next_deadline P e (world s1)).
  - destruct (negb (type_is_int (next_deadline P e (world s1)))).
    + apply Hsame. right. eexists. symmetry. exact Hrun.
    + apply (Hadd TimeT e). symmetry. exact Hrun.
  - destruct (has_triggered P e (world s1)).
    + destruct (has_waiting_on P e (world s1)).
      * apply (Hadd AggregateT e). symmetry. exact Hrun.
      * apply (Hadd FlagT e). symmetry. exact Hrun.
    + apply Hsame. left. symmetry. exact Hrun.
Qed.

(** *** The add queue *)

Lemma queues_grow_tracker s k tr : queues_grow s (set_tracker k tr s).
Proof. destruct k; repeat split; reflexivity. Qed.

Lemma steps_do_adds_from R fuel now i :
  call_frame R -> (forall s k tr, R s (set_tracker k tr s)) ->
  steps R (do_adds_from P fuel now i).
Proof.
  intros HR Htr. destruct (cf_preorder R HR) as [Hrefl Htrans].
  revert i. induction fuel as [|fuel IH]; intros i; cbn [do_adds_from].
  - apply steps_out_of_fuel, Hrefl.
  - apply steps_bind; [exact Htrans|apply steps_gets, Hrefl|intros queue].
    destruct (queue !! i) as [machine|]; [|apply steps_ret, Hrefl].
    apply steps_bind;
      [exact Htrans|apply steps_modify; intros s; apply (cf_state R HR)|].
    intros _.
    apply steps_bind; [exact Htrans| |intros _; apply IH].
    apply steps_advance; assumption.
Qed.

(** An advancement that returns has called the recorded state function
    first, then only state functions of the same machine. *)
Lemma advance_loop_calls fuel now machine event s st0 next s' :
  advance_loop P fuel now machine event s = (Ok next, s') ->
  state s !! machine = Some st0 ->
  exists sts,
    trace s' = trace s ++ ACall machine st0 :: (ACall machine <$> sts).
Proof.
  revert s st0. induction fuel as [|fuel IH]; intros s st0 Hrun Hst;
    [discriminate|].
  cbn [advance_loop] in Hrun. unfold bind at 1 in Hrun.
  destruct (call_state P now machine event s) as [rc s1] eqn:Hcs.
  destruct (transitions s !! machine) as [n|] eqn:Hn.
  - destruct (call P st0 now (world s)) as [[rr calls] w] eqn:Hcall.
    rewrite (call_state_eq P now machine event s n st0 rr calls w Hn Hst Hcall)
      in Hcs.
    destruct (called_frame s machine n st0 w calls)
      as (_ & _ & _ & Htr & _).
    cbv zeta in Htr.
    destruct rr as [next_state nx|err];
      [|injection Hcs as <- <-; discriminate].
    injection Hcs as <- <-.
    destruct (decide (nx = IMMEDATE_TRANSFER)) as [Himm|Himm].
    + destruct (IH _ (default st0 next_state) Hrun) as (sts & Hsts).
      { cbn [state set_state]. apply lookup_insert_eq. }
      exists (default st0 next_state :: sts). rewrite Hsts.
      cbn [trace set_state]. rewrite Htr, <- app_assoc. reflexivity.
    + injection Hrun as _ <-. exists [].
      cbn [trace set_state]. rewrite Htr. reflexivity.
  - unfold call_state, bind, getattr in Hcs. rewrite Hn in Hcs.
    injection Hcs as <- <-. discriminate.
Qed.

Lemma advance_started fuel now machine event s st0 s' :
  advance P fuel now machine event s = (Ok tt, s') ->
  state s !! machine = Some st0 ->
  exists sts,
    trace s' =
      trace s ++ AAdvance machine event :: ACall machine st0
              :: (ACall machine <$> sts).
Proof.
  intros Hrun Hst. unfold advance in Hrun.
  unfold bind at 1, modify at 1 in Hrun. unfold bind at 1 in Hrun.
  destruct (advance_loop P fuel now machine event
              (log (AAdvance machine event) s)) as [[next|e|] s1] eqn:Hloop;
    try discriminate.
  destruct (advance_loop_calls _ _ _ _ _ st0 _ _ Hloop Hst) as (sts & Hsts).
  exists sts.
  assert (Htr : trace s' = trace s1).
  { destruct (match next with
              | NEvent e => Some e
              | NAbsent => event
              | IMMEDATE_TRANSFER => None
              end) as [e|]; [|injection Hrun as <-; reflexivity].
    unfold bind, gets, tracker_add, modify, raise, ret in Hrun.
    destruct (has_next_deadline P e (world s1)).
    - destruct (negb (type_is_int (next_deadline P e (world s1))));
        [discriminate|injection Hrun as <-; reflexivity].
    - destruct (has_triggered P e (world s1));
        [|injection Hrun as <-; reflexivity].
      destruct (has_waiting_on P e (world s1));
        injection Hrun as <-; reflexivity. }
  rewrite Htr, Hsts. cbn [trace log]. rewrite <- app_assoc. reflexivity.
Qed.

Lemma advanced_started machine (sts : list St) :
  advanced (started P machine sts) = [machine].
Proof.
  unfold started.
  change (advanced (AAdvance machine None
                      :: ACall machine (start P machine)
                      :: (ACall machine <$> sts)))
    with (machine :: advanced (ACall machine <$> sts)).
  rewrite advanced_calls; [reflexivity|].
  apply Forall_fmap, Forall_forall. intros st _. reflexivity.
Qed.

Lemma advanced_all_started (queue : list obj) (calls : list (list St)) :
  length calls = length queue ->
  advanced (concat (zip_with (started P) queue calls)) = queue.
Proof.
  revert calls. induction queue as [|machine queue IH];
    intros [|sts calls] Hlen; try discriminate; [reflexivity|].
  cbn [zip_with concat]. rewrite advanced_app, advanced_started.
  rewrite IH by (cbn in Hlen; lia). reflexivity.
Qed.

(** The loop from index [i]: when it returns, it has started the queue
    as it stands at the end, from [i] on. *)
Lemma do_adds_from_started fuel now i s s' :
  do_adds_from P fuel now i s = (Ok tt, s') ->
  pending_adds s `prefix_of` pending_adds s' /\
  exists calls : list (list St),
    length calls = length (drop i (pending_adds s')) /\
    trace s' =
      trace s ++ concat (zip_with (started P) (drop i (pending_adds s')) calls).
Proof.
  revert i s. induction fuel as [|fuel IH]; intros i s Hrun; [discriminate|].
  cbn [do_adds_from] in Hrun. unfold bind at 1, gets at 1 in Hrun.
  destruct (pending_adds s !! i) as [machine|] eqn:Hi.
  - unfold bind at 1, modify at 1 in Hrun. unfold bind at 1 in Hrun.
    remember (set_state (<[machine := start P machine]> (state s)) s) as s0
      eqn:Hs0.
    pose proof (steps_advance queues_grow fuel now machine None
                  queues_grow_frame queues_grow_tracker s0) as Hq.
    destruct (advance P fuel now machine None s0) as [[[]|e|] s1] eqn:Hadv;
      try discriminate.
    cbn [snd] in Hq.
    destruct (advance_started _ _ _ _ _ (start P machine) _ Hadv)
      as (sts & Hsts).
    { subst s0. cbn [state set_state]. apply lookup_insert_eq. }
    destruct (IH _ _ Hrun) as (Hpre & calls & Hlen & Hl).
    destruct Hq as (Hq & _).
    assert (Hp : pending_adds s `prefix_of` pending_adds s').
    { etrans; [|exact Hpre]. subst s0. exact Hq. }
    split; [exact Hp|].
    assert (Hi' : pending_adds s' !! i = Some machine)
      by (eapply prefix_lookup_Some; eassumption).
    rewrite (drop_S _ _ _ Hi').
    exists (sts :: calls). split; [cbn; rewrite Hlen; reflexivity|].
    cbn [zip_with concat]. rewrite Hl, Hsts. subst s0.
    cbn [trace set_state]. unfold started. rewrite <- app_assoc.
    reflexivity.
  - injection Hrun as <-. split; [reflexivity|].
    exists []. rewrite (drop_ge (pending_adds s) i)
      by (apply lookup_ge_None; exact Hi).
    split; [reflexivity|]. cbn. rewrite app_nil_r. reflexivity.
Qed.

(** X11.  The [for] loop of [do_adds] walks the list that
    [register_machine] extends: when it returns, the machines of the
    queue as it stands at the end, that is the machines queued at the
    start followed by those registered while the loop ran, have each
    been advanced once, in queue order, without an originating event and
    beginning with the machine's [start] function; and the loop has
    recorded nothing else. *)
Theorem do_adds_starts_whole_queue fuel now s s' :
  do_adds_from P fuel now 0 s = (Ok tt, s') ->
  pending_adds s `prefix_of` pending_adds s' /\
  exists calls : list (list St),
    length calls = length (pending_adds s') /\
    trace s' =
      trace s ++ concat (zip_with (started P) (pending_adds s') calls) /\
    advanced (concat (zip_with (started P) (pending_adds s') calls)) =
      pending_adds s'.
Proof.
  intros Hrun.
  destruct (do_adds_from_started fuel now 0 s s' Hrun)
    as (Hpre & calls & Hlen & Hl).
  rewrite drop_0 in Hlen, Hl.
  split; [exact Hpre|]. exists calls. split; [exact Hlen|].
  split; [exact Hl|]. apply advanced_all_started, Hlen.
Qed.

(** X12.  [do_adds] empties the add queue only when every machine was
    started without an exception; when it ends otherwise the queue still
    holds every machine it held, so the next [do_adds] starts all of them
    again.  The delete queue never shrinks. *)
Theorem do_adds_clears_on_success fuel now s :
  ((do_adds P fuel now s).1 = Ok tt ->
   pending_adds (do_adds P fuel now s).2 = []) /\
  ((do_adds P fuel now s).1 ≠ Ok tt ->
   pending_adds s `prefix_of` pending_adds (do_adds P fuel now s).2) /\
  pending_deletes s `prefix_of` pending_deletes (do_adds P fuel now s).2.
Proof.
  destruct (do_adds P fuel now s) as [r s'] eqn:Hrun. cbn [fst snd].
  unfold do_adds in Hrun. unfold bind at 1, modify at 1 in Hrun.
  unfold bind at 1, gets at 1 in Hrun.
  change (pending_adds (log ACommitAdds s)) with (pending_adds s) in Hrun.
  destruct (pending_adds s) as [|machine queue] eqn:Hqueue.
  - injection Hrun as <- <-. split; [intros _; exact Hqueue|].
    split; [|reflexivity]. intros Hn. exfalso. apply Hn. reflexivity.
  - unfold bind in Hrun.
    pose proof (steps_do_adds_from queues_grow fuel now 0 queues_grow_frame
                  queues_grow_tracker (log ACommitAdds s)) as (Ha & Hd & _).
    change (pending_adds (log ACommitAdds s)) with (pending_adds s) in Ha.
    change (pending_deletes (log ACommitAdds s)) with (pending_deletes s)
      in Hd.
    rewrite Hqueue in Ha.
    destruct (do_adds_from P fuel now 0 (log ACommitAdds s)) as [[[]|e|] s1];
      cbn [snd] in Ha, Hd; injection Hrun as <- <-.
    + split; [intros _; reflexivity|]. split; [|exact Hd].
      intros Hn. exfalso. apply Hn. reflexivity.
    + split; [discriminate|]. split; [intros _; exact Ha|exact Hd].
    + split; [discriminate|]. split; [intros _; exact Ha|exact Hd].
Qed.


End SchedulerMore.

(** ** The add and delete queues on the stock classes *)

Module StockMore.
Import Stock.

(** A [Blinker] waiting in the add queue is started by the loop of
    [do_adds]: [start], then [off], which subscribes it to its pulser. *)
Lemma do_adds_starts_whole_queue_witness :
  let s := set_pending_adds [1%nat] blinker_start in
  let s' := (do_adds_from classes 3 0 0 s).2 in
  do_adds_from classes 3 0 0 s = (Ok tt, s') /\
  pending_adds s `prefix_of` pending_adds s' /\
  exists calls : list (list bound),
    length calls = length (pending_adds s') /\
    trace s' =
      trace s ++ concat (zip_with (started classes) (pending_adds s') calls) /\
    advanced (concat (zip_with (started classes) (pending_adds s') calls)) =
      pending_adds s'.
Proof.
  intros s s'.
  assert (Hrun : do_adds_from classes 3 0 0 s = (Ok tt, s'))
    by (vm_compute; reflexivity).
  split; [exact Hrun|].
  exact (do_adds_starts_whole_queue classes 3 0 s s' Hrun).
Defined.

End StockMore.

(** ** Committing the delete queue *)

Section SchedulerDeletes.

Context {W St E : Type}.
Variable P : program W St E.
Implicit Types (s : sched W St) (machine x : obj).










End SchedulerDeletes.

Module StockDeletes.
Import Stock.


End StockDeletes.

(** ** The button watcher counts releases *)

Module ButtonWatcherFacts.
Import ButtonWatcher.

Lemma releases_cons2 (a b : bool) (l : list bool) :
  releases (a :: b :: l) =
    ((if a && negb b then 1 else 0) + releases (b :: l))%nat.
Proof. destruct a, b; reflexivity. Qed.

Lemma calls_invert st self values :
  invert (calls st self values).2 = invert self.
Proof.
  revert st self. induction values as [|value rest IH]; intros st self;
    [reflexivity|].
  cbn [calls]. destruct (call st value self) as [[st' i] self'] eqn:Hcall.
  rewrite IH. unfold call in Hcall.
  destruct st, (xorb value (invert self)); injection Hcall as <- <- <-;
    reflexivity.
Qed.

(** From [down] or [up], that is after a reading [was_held]. *)
Lemma calls_watching was_held self values :
  (calls (watching was_held) self values).1 =
    watching (default was_held (last (held self values))) /\
  pending_count (calls (watching was_held) self values).2 =
    pending_count self + Z.of_nat (releases (was_held :: held self values)).
Proof.
  revert was_held self.
  induction values as [|value rest IH]; intros was_held self.
  - cbn. split; [reflexivity|]. destruct was_held; cbn; lia.
  - cbn [calls held fmap list_fmap].
    remember (xorb value (invert self)) as h eqn:Hh.
    assert (Hcall : call (watching was_held) value self =
              (watching h, false,
               mk (invert self)
                  (pending_count self +
                   (if was_held && negb h then 1 else 0)))).
    { unfold call, watching. rewrite <- Hh.
      destruct self as [inv pc]. destruct was_held, h; cbn;
        try reflexivity; do 2 f_equal; lia. }
    rewrite Hcall.
    specialize (IH h (mk (invert self)
                  (pending_count self +
                   (if was_held && negb h then 1 else 0)))).
    unfold held in IH. cbn [invert pending_count] in IH.
    destruct IH as [IHs IHc]. split.
    + rewrite IHs. f_equal. rewrite last_cons.
      destruct (last ((fun value => xorb value (invert self)) <$> rest));
        reflexivity.
    + rewrite IHc. unfold held. rewrite releases_cons2.
      destruct was_held, h; cbn [andb negb]; lia.
Qed.

(** X14.  A registered [ButtonWatcher] counts releases: after its state
    functions have run on a sequence of button readings, starting from
    [start], [pending_count] has grown by the number of readings "held"
    directly followed by a reading "released", whatever [invert] is;
    holding the button or leaving it alone adds nothing, and the state is
    [down] or [up] according to the last reading. *)
Theorem watcher_counts_releases (self : t) (values : list bool) :
  pending_count (calls start self values).2 =
    pending_count self + Z.of_nat (releases (held self values)) /\
  invert (calls start self values).2 = invert self /\
  (calls start self values).1 =
    match last (held self values) with
    | None => start
    | Some was_held => watching was_held
    end.
Proof.
  split; [|split; [apply calls_invert|]].
  - destruct values as [|value rest]; [cbn; lia|].
    cbn [calls].
    assert (Hcall : call start value self =
                    (watching (xorb value (invert self)), true, self)).
    { unfold call, watching. destruct (xorb value (invert self)); reflexivity. }
    rewrite Hcall.
    destruct (calls_watching (xorb value (invert self)) self rest) as [_ Hc].
    exact Hc.
  - destruct values as [|value rest]; [reflexivity|].
    cbn [calls].
    assert (Hcall : call start value self =
                    (watching (xorb value (invert self)), true, self)).
    { unfold call, watching. destruct (xorb value (invert self)); reflexivity. }
    rewrite Hcall.
    destruct (calls_watching (xorb value (invert self)) self rest) as [Hs _].
    rewrite Hs. unfold held. rewrite fmap_cons, last_cons.
    destruct (last ((fun value => xorb value (invert self)) <$> rest));
      reflexivity.
Qed.

Lemma consume_step (self : t) :
  0 <= pending_count self ->
  (consume self).1 = triggered self /\
  invert (consume self).2 = invert self /\
  pending_count (consume self).2 =
    pending_count self - (if triggered self then 1 else 0) /\
  0 <= pending_count (consume self).2.
Proof.
  intros Hpos. unfold consume, triggered.
  destruct (decide (pending_count self = 0)) as [Hz|Hz].
  - rewrite (bool_decide_eq_true_2 _ Hz).
    rewrite bool_decide_eq_false_2 by lia. cbn. repeat split; lia.
  - rewrite (bool_decide_eq_false_2 _ Hz).
    rewrite bool_decide_eq_true_2 by lia. cbn. repeat split; lia.
Qed.

Lemma consumes_count (self : t) (n k : nat) :
  pending_count self = Z.of_nat n ->
  pending_count (consumes k self).2 = Z.of_nat (n - k).
Proof.
  revert self n. induction k as [|k IH]; intros self n Hn.
  - cbn. rewrite Hn. f_equal. lia.
  - cbn [consumes].
    destruct (consume_step self) as (_ & _ & Hc & _); [lia|].
    destruct (consume self) as [r self'] eqn:Hcons. cbn [snd] in Hc.
    specialize (IH self' (n - 1)%nat).
    destruct (consumes k self') as [rs self''] eqn:Hrest.
    cbn [snd] in *. unfold triggered in Hc.
    destruct n as [|n].
    + rewrite bool_decide_eq_false_2 in Hc by lia.
      rewrite IH by lia. f_equal.
    + rewrite bool_decide_eq_true_2 in Hc by lia.
      rewrite IH by lia. f_equal. lia.
Qed.

(** X15.  Every counted release is consumed once: with [n] releases
    pending, [k] calls of [consume] answer [True] for the first [n] and
    [False] for the rest, leave [max(n - k, 0)] pending, and the count
    never goes below zero; [triggered()] says what the next [consume]
    will answer. *)
Theorem consume_drains (self : t) (n k : nat) :
  pending_count self = Z.of_nat n ->
  (consumes k self).1 =
    replicate (Nat.min n k) true ++ replicate (k - n) false /\
  pending_count (consumes k self).2 = Z.of_nat (n - k) /\
  triggered (consumes k self).2 = bool_decide (k < n)%nat /\
  (consume self).1 = triggered self.
Proof.
  intros Hn.
  assert (Hlast : (consume self).1 = triggered self).
  { apply consume_step. lia. }
  split; [|split; [|split; [|exact Hlast]]]; clear Hlast.
  - revert self n Hn. induction k as [|k IH]; intros self n Hn.
    + cbn. rewrite Nat.min_0_r. reflexivity.
    + cbn [consumes].
      destruct (consume_step self) as (Hr & _ & Hc & _); [lia|].
      destruct (consume self) as [r self'] eqn:Hcons. cbn [fst snd] in Hr, Hc.
      specialize (IH self' (n - 1)%nat).
      destruct (consumes k self') as [rs self''] eqn:Hrest.
      cbn [fst] in *. unfold triggered in Hr, Hc.
      destruct n as [|n].
      * rewrite bool_decide_eq_false_2 in Hr, Hc by lia. subst r.
        rewrite IH by lia. cbn. rewrite Nat.sub_0_r. reflexivity.
      * rewrite bool_decide_eq_true_2 in Hr, Hc by lia. subst r.
        rewrite IH by lia. cbn. rewrite Nat.sub_0_r. reflexivity.
  - apply consumes_count, Hn.
  - unfold triggered. rewrite (consumes_count self n k Hn).
    destruct (decide (k < n)%nat) as [Hlt|Hlt].
    + rewrite (bool_decide_eq_true_2 _ Hlt). apply bool_decide_eq_true_2. lia.
    + rewrite (bool_decide_eq_false_2 _ Hlt).
      apply bool_decide_eq_false_2. lia.
Qed.

Lemma consume_drains_witness :
  let self := (calls start (mk true 0) [false; true; true; false; true]).2 in
  pending_count self = Z.of_nat 2 /\
  (consumes 3 self).1 = [true; true; false] /\
  pending_count (consumes 3 self).2 = 0.
Proof.
  intros self.
  assert (Hn : pending_count self = Z.of_nat 2) by reflexivity.
  split; [exact Hn|].
  destruct (consume_drains self 2 3 Hn) as (Hrs & Hc & _).
  split; [exact Hrs|exact Hc].
Defined.

End ButtonWatcherFacts.

(** ** The index bounds of the flicker policy *)

Module FlickerPolicyFacts.
Import FlickerPolicy.

(** X16.  [limit_index] never answers less than [index_bottom]; when the
    policy's bounds are in order it clamps into [index_bottom, index_max],
    leaves an index inside the bounds alone and is idempotent; when
    [index_bottom] is above [index_max] it answers [index_bottom] for
    every index, the bottom bound being applied last. *)
Theorem limit_index_clamps (self : t) (index : Z) :
  index_bottom self <= limit_index self index /\
  (index_bottom self <= index_max self ->
   limit_index self index <= index_max self /\
   (index_bottom self <= index <= index_max self ->
    limit_index self index = index)) /\
  limit_index self (limit_index self index) = limit_index self index /\
  (index_max self < index_bottom self ->
   limit_index self index = index_bottom self).
Proof.
  unfold limit_index. split; [lia|]. split; [|split; [lia|]].
  - intros Hbounds. split; [lia|]. intros Hin. lia.
  - intros Hcrossed. lia.
Qed.

End FlickerPolicyFacts.

(** ** A pulser that keeps up does not drift *)

Module PulserMore.
Import Pulser PulserFacts.

Lemma deadlines_lookup_0 self nows :
  deadlines self nows !! 0%nat = Some (deadline self).
Proof. reflexivity. Qed.

(** X17.  A pulser computes each deadline from the previous deadline, not
    from the time of the call: as long as no call comes later than one
    period after the deadline it answers, the deadline after [n] calls is
    exactly the first deadline plus [n] periods, however late within the
    period the calls come. *)
Theorem pulser_keeps_pace (self : Pulser.t) (nows : list Z) :
  (forall i now d,
     nows !! i = Some now -> deadlines self nows !! i = Some d ->
     now <= d + period self) ->
  forall n, (n <= length nows)%nat ->
    deadlines self nows !! n = Some (deadline self + Z.of_nat n * period self).
Proof.
  revert self. induction nows as [|now rest IH]; intros self Hpace n Hn.
  - cbn in Hn. assert (n = 0%nat) as -> by lia.
    rewrite deadlines_lookup_0. f_equal. lia.
  - destruct n as [|n]; [rewrite deadlines_lookup_0; f_equal; lia|].
    rewrite deadlines_cons, lookup_cons.
    rewrite IH.
    + rewrite happend_period, happend_deadline.
      pose proof (Hpace 0%nat now (deadline self) eq_refl eq_refl) as H0.
      rewrite bool_decide_eq_false_2 by lia. f_equal. lia.
    + intros i t d Ht Hd. rewrite happend_period.
      apply (Hpace (S i) t d); [exact Ht|].
      rewrite deadlines_cons, lookup_cons. exact Hd.
    + cbn in Hn. lia.
Qed.

Lemma pulser_keeps_pace_witness :
  let self := Pulser.init 2 1000 in
  let nows := [2000001000; 6000001000; 6000001005] in
  deadlines self nows !! 3%nat = Some (2000001000 + Z.of_nat 3 * 2000000000).
Proof.
  intros self nows. apply (pulser_keeps_pace self nows); [|cbn; lia].
  intros i now d Hi Hd.
  destruct i as [|[|[|i]]]; cbn in Hi, Hd; try discriminate;
    injection Hi as <-; injection Hd as <-; vm_compute; discriminate.
Defined.

End PulserMore.
